(** * Hasan's Scout: the lead pipeline and the Scout controller

    A shallow embedding of the search pipeline of the dashboard:

    - [services/geminiService]: [mapConfidence], the normalisation of raw
      provider records and the quota classification of [findLeads];
    - [App]: [isValidEmail], the validation and deduplication passes of
      [executeSearch], and the controller state ([leads], [status],
      [currentCriteria], [quotaHit]) with its handlers and effects.

    JavaScript strings are modelled by [string]: a character is a code unit
    below 256.  The provider, the clock, [crypto.randomUUID] and the user
    are the environment: what they produce is carried by the events. *)

From Stdlib Require Import Ascii String ZArith Lia.
From stdpp Require Import base decidable list strings gmap pretty.

Open Scope string_scope.

(** ** JavaScript strings *)

Module Js.

Definition code (c : ascii) : nat := nat_of_ascii c.

Definition between (lo hi : nat) (c : ascii) : bool :=
  (lo <=? code c)%nat && (code c <=? hi)%nat.

(** [String.prototype.toLowerCase] on the code units below 256: the
    letters A-Z and the accented capitals U+00C0-U+00DE (the
    multiplication sign U+00D7 apart) move 32 places up. *)
Definition lowerChar (c : ascii) : ascii :=
  if between 65 90 c || (between 192 222 c && negb (code c =? 215)%nat)
  then ascii_of_nat (code c + 32)
  else c.

Fixpoint toLowerCase (s : string) : string :=
  match s with
  | EmptyString => EmptyString
  | String c s' => String (lowerChar c) (toLowerCase s')
  end.

(** [s.includes(needle)] *)
Fixpoint includes (s needle : string) : bool :=
  String.prefix needle s ||
  match s with
  | EmptyString => false
  | String _ s' => includes s' needle
  end.

(** A string is falsy exactly when it is empty. *)
Definition truthy (s : string) : bool := negb (s =? "").

(** Truthiness of a property that is a string or is absent. *)
Definition present (v : option string) : bool :=
  match v with
  | Some s => truthy s
  | None => false
  end.

(** [v || d] where [v] is a property that is a string or is absent. *)
Definition orElse (v : option string) (d : string) : string :=
  match v with
  | Some s => if truthy s then s else d
  | None => d
  end.

(** The values an error's [status] and [code] properties take. *)
Inductive value : Type :=
| Undefined
| Num (n : Z)
| Str (s : string).

Definition truthyValue (v : value) : bool :=
  match v with
  | Undefined => false
  | Num n => negb (n =? 0)%Z
  | Str s => truthy s
  end.

(** [a || b] on values *)
Definition or (a b : value) : value := if truthyValue a then a else b.

(** [v === n] for a number literal [n] *)
Definition strictEqNum (v : value) (n : Z) : bool :=
  match v with
  | Num m => (m =? n)%Z
  | _ => false
  end.

Definition dquote : ascii := "034"%char.
Definition newline : string := String "010"%char EmptyString.

End Js.

(** ** Regular expressions

    [RegExp.prototype.test] for a pattern anchored by [^] and [$], built
    from character classes, concatenation, alternation and repetition,
    decides membership of the whole string in the pattern's language.  The
    matcher below decides it by derivatives. *)

Module Re.

Inductive regex : Type :=
| Void
| Eps
| Cls (p : ascii -> bool)
| Cat (r1 r2 : regex)
| Alt (r1 r2 : regex)
| Star (r : regex).

(** one literal character *)
Definition Chr (c : ascii) : regex := Cls (Ascii.eqb c).
(** [r+] *)
Definition Plus (r : regex) : regex := Cat r (Star r).
(** [r?] *)
Definition Opt (r : regex) : regex := Alt Eps r.
(** [r{1,3}] *)
Definition Rep13 (r : regex) : regex := Cat r (Opt (Cat r (Opt r))).
(** [r{2,}] *)
Definition AtLeast2 (r : regex) : regex := Cat r (Cat r (Star r)).

Fixpoint nullable (r : regex) : bool :=
  match r with
  | Void => false
  | Eps => true
  | Cls _ => false
  | Cat r1 r2 => nullable r1 && nullable r2
  | Alt r1 r2 => nullable r1 || nullable r2
  | Star _ => true
  end.

Fixpoint deriv (c : ascii) (r : regex) : regex :=
  match r with
  | Void => Void
  | Eps => Void
  | Cls p => if p c then Eps else Void
  | Cat r1 r2 =>
      if nullable r1
      then Alt (Cat (deriv c r1) r2) (deriv c r2)
      else Cat (deriv c r1) r2
  | Alt r1 r2 => Alt (deriv c r1) (deriv c r2)
  | Star r1 => Cat (deriv c r1) (Star r1)
  end.

Fixpoint matches (r : regex) (s : list ascii) : bool :=
  match s with
  | [] => nullable r
  | c :: s' => matches (deriv c r) s'
  end.

(** [r.test(s)] for an anchored pattern [r] *)
Definition test (r : regex) (s : string) : bool :=
  matches r (list_ascii_of_string s).

(** The language of a pattern. *)
Inductive Lang : regex -> list ascii -> Prop :=
| LEps : Lang Eps []
| LCls p c : p c = true -> Lang (Cls p) [c]
| LCat r1 r2 s1 s2 : Lang r1 s1 -> Lang r2 s2 -> Lang (Cat r1 r2) (s1 ++ s2)
| LAltL r1 r2 s : Lang r1 s -> Lang (Alt r1 r2) s
| LAltR r1 r2 s : Lang r2 s -> Lang (Alt r1 r2) s
| LStarNil r : Lang (Star r) []
| LStarCons r s1 s2 :
    Lang r s1 -> Lang (Star r) s2 -> Lang (Star r) (s1 ++ s2).

End Re.

(** ** types.ts *)

Inductive Confidence : Type := Verified | High | Low | Estimated.

Module Lead.
Record t : Type := mk {
  id : string;
  firstName : string;
  lastName : string;
  email : string;
  phone : string;
  jobTitle : string;
  companyName : string;
  location : string;
  linkedin : string;
  website : string;
  emailConfidence : Confidence;
  source : option string
}.
End Lead.

Module SearchCriteria.
Record t : Type := mk {
  targetRoles : string;
  keywords : string;
  industries : string;
  location : string;
  includeContactInfo : bool;
  resultsAmount : nat
}.
End SearchCriteria.

Module ScoutStatus.
Record t : Type := mk {
  isSearching : bool;
  isLooping : bool;
  totalFound : nat;
  lastSearchTime : option string;
  logs : list string
}.
End ScoutStatus.

(** ** services/geminiService.ts *)

(** An element of the array the provider answers with.  The response
    schema declares every property a string; a property may be absent. *)
Module RawLead.
Record t : Type := mk {
  firstName : option string;
  lastName : option string;
  email : option string;
  phone : option string;
  jobTitle : option string;
  companyName : option string;
  location : option string;
  linkedin : option string;
  website : option string;
  emailConfidence : option string
}.
End RawLead.

Definition mapConfidence (conf : string) : Confidence :=
  let c := Js.toLowerCase conf in
  if Js.includes c "verif" then Verified
  else if Js.includes c "high" then High
  else if Js.includes c "low" then Low
  else Estimated.

(** The callback of [rawLeads.map] in [findLeads]; [uuid] is what
    [crypto.randomUUID()] returned for this record. *)
Definition normalize (uuid : string) (l : RawLead.t) : Lead.t :=
  {| Lead.id := uuid;
     Lead.firstName := Js.orElse (RawLead.firstName l) "Unknown";
     Lead.lastName := Js.orElse (RawLead.lastName l) "";
     Lead.email := Js.orElse (RawLead.email l) "NULL";
     Lead.phone := Js.orElse (RawLead.phone l) "NULL";
     Lead.jobTitle := Js.orElse (RawLead.jobTitle l) "Unknown";
     Lead.companyName := Js.orElse (RawLead.companyName l) "Unknown";
     Lead.location := Js.orElse (RawLead.location l) "Unknown";
     Lead.linkedin := Js.orElse (RawLead.linkedin l) "";
     Lead.website := Js.orElse (RawLead.website l) "";
     Lead.emailConfidence :=
       mapConfidence (Js.orElse (RawLead.emailConfidence l) "Low");
     Lead.source := Some "Gemini Search" |}.

(** The error object caught in [findLeads]: its [message], [status] and
    [code] properties, and [errBody], the string
    [JSON.stringify(error, Object.getOwnPropertyNames(error))]. *)
Module ProviderError.
Record t : Type := mk {
  message : option string;
  status : Js.value;
  code : Js.value;
  errBody : string
}.
End ProviderError.

Definition isQuotaError (error : ProviderError.t) : bool :=
  let msg := Js.orElse (ProviderError.message error) "" in
  let status := Js.or (ProviderError.status error) (ProviderError.code error) in
  let errBody := ProviderError.errBody error in
  Js.includes msg "RESOURCE_EXHAUSTED" ||
  Js.includes msg "429" ||
  Js.includes msg "quota" ||
  Js.strictEqNum status 429 ||
  Js.includes errBody "RESOURCE_EXHAUSTED" ||
  Js.includes errBody "search_grounding_request_per_project_per_day_per_user".

(** What [findLeads] throws: an error it creates, or the one it caught. *)
Inductive Thrown : Type :=
| NewError (message : string)
| Rethrown (error : ProviderError.t).

Definition thrownMessage (e : Thrown) : option string :=
  match e with
  | NewError m => Some m
  | Rethrown error => ProviderError.message error
  end.

(** The [catch] block of [findLeads]. *)
Definition classify (error : ProviderError.t) : Thrown :=
  if isQuotaError error then NewError "QUOTA_EXCEEDED" else Rethrown error.

(** How the [try] block of [findLeads] ends: the provider's answer parsed
    into an array of records, or an error thrown on the way. *)
Inductive GatewayResult : Type :=
| Responded (rawLeads : list RawLead.t)
| Failed (error : ProviderError.t).

(** [rawLeads.map(...)], the [i]-th record taking the [i]-th identifier. *)
Definition normalizeAll (uuid : nat -> string) (rawLeads : list RawLead.t)
  : list Lead.t :=
  imap (fun i l => normalize (uuid i) l) rawLeads.

(** [findLeads]: [apiKey] is [process.env.API_KEY]. *)
Definition findLeads (apiKey : option string) (uuid : nat -> string)
    (g : GatewayResult) : Thrown + list Lead.t :=
  if negb (Js.present apiKey) then inl (NewError "API Key is missing")
  else match g with
       | Responded rawLeads => inr (normalizeAll uuid rawLeads)
       | Failed error => inl (classify error)
       end.

(** ** App.tsx: the email validator *)

Module EmailRe.
Import Re.

(** [\s] on the code units below 256 *)
Definition isSpace (c : ascii) : bool :=
  Js.between 9 13 c || (Js.code c =? 32)%nat || (Js.code c =? 160)%nat.

(** the characters the negated class of the local part lists:
    angle brackets, parentheses, square brackets, backslash, dot, comma,
    semicolon, colon, white space, at sign and double quote *)
Definition isSpecial (c : ascii) : bool :=
  (c =? "<")%char || (c =? ">")%char || (c =? "(")%char || (c =? ")")%char ||
  (c =? "[")%char || (c =? "]")%char || (c =? "\")%char || (c =? ".")%char ||
  (c =? ",")%char || (c =? ";")%char || (c =? ":")%char || isSpace c ||
  (c =? "@")%char || (c =? Js.dquote)%char.

Definition isAtomChar (c : ascii) : bool := negb (isSpecial c).

(** [.] matches everything but a line terminator *)
Definition isAny (c : ascii) : bool :=
  negb ((Js.code c =? 10)%nat || (Js.code c =? 13)%nat).

(** [[0-9]] *)
Definition isDigit (c : ascii) : bool := Js.between 48 57 c.
(** [[a-zA-Z]] *)
Definition isAlpha (c : ascii) : bool := Js.between 97 122 c || Js.between 65 90 c.
(** [[a-zA-Z\-0-9]] *)
Definition isLabelChar (c : ascii) : bool :=
  isAlpha c || (c =? "-")%char || isDigit c.

(** the unquoted local part: one or more characters of the negated
    class, then any number of groups of a dot and one or more such
    characters *)
Definition dotAtom : regex :=
  Cat (Plus (Cls isAtomChar)) (Star (Cat (Chr ".") (Plus (Cls isAtomChar)))).

(** a double quote, [.+], a double quote *)
Definition quoted : regex :=
  Cat (Chr Js.dquote) (Cat (Plus (Cls isAny)) (Chr Js.dquote)).

(** [(\[[0-9]{1,3}\.[0-9]{1,3}\.[0-9]{1,3}\.[0-9]{1,3}])] *)
Definition ipLiteral : regex :=
  Cat (Chr "[")
 (Cat (Rep13 (Cls isDigit)) (Cat (Chr ".")
 (Cat (Rep13 (Cls isDigit)) (Cat (Chr ".")
 (Cat (Rep13 (Cls isDigit)) (Cat (Chr ".")
 (Cat (Rep13 (Cls isDigit)) (Chr "]")))))))).

(** [(([a-zA-Z\-0-9]+\.)+[a-zA-Z]{2,})] *)
Definition hostName : regex :=
  Cat (Plus (Cat (Plus (Cls isLabelChar)) (Chr "."))) (AtLeast2 (Cls isAlpha)).

(** The pattern of [isValidEmail], between its [^] and [$]. *)
Definition re : regex :=
  Cat (Alt dotAtom quoted) (Cat (Chr "@") (Alt ipLiteral hostName)).

End EmailRe.

Definition isValidEmail (email : string) : bool :=
  if negb (Js.truthy email) || (email =? "NULL") then false
  else Re.test EmailRe.re email.

(** ** The pattern, part by part

    What a string must be to belong to each part of the pattern of
    [isValidEmail], with the character classes of the pattern: the step
    between the matcher and the address grammar. *)

Module Address.

Local Open Scope list_scope.

Definition chars (p : ascii -> bool) (s : list ascii) : Prop :=
  Forall (fun c => p c = true) s.

Definition atom (s : list ascii) : Prop :=
  s <> [] /\ chars EmailRe.isAtomChar s.

Definition dotAtom (s : list ascii) : Prop :=
  exists (a : list ascii) (rest : list (list ascii)),
    atom a /\ Forall atom rest /\
    s = a ++ concat (List.map (fun x => "."%char :: x) rest).

Definition quoted (s : list ascii) : Prop :=
  exists body : list ascii,
    body <> [] /\ chars EmailRe.isAny body /\
    s = Js.dquote :: body ++ [Js.dquote].

Definition localPart (s : list ascii) : Prop := dotAtom s \/ quoted s.

Definition octet (s : list ascii) : Prop :=
  (1 <= length s <= 3)%nat /\ chars EmailRe.isDigit s.

Definition ipLiteral (s : list ascii) : Prop :=
  exists a b c d : list ascii,
    octet a /\ octet b /\ octet c /\ octet d /\
    s = "["%char :: a ++ "."%char :: b ++ "."%char :: c ++ "."%char :: d
          ++ ["]"%char].

Definition label (s : list ascii) : Prop :=
  s <> [] /\ chars EmailRe.isLabelChar s.

Definition tld (s : list ascii) : Prop :=
  (2 <= length s)%nat /\ chars EmailRe.isAlpha s.

Definition hostName (s : list ascii) : Prop :=
  exists (labels : list (list ascii)) (t : list ascii),
    labels <> [] /\ Forall label labels /\ tld t /\
    s = concat (List.map (fun l => l ++ ["."%char]) labels) ++ t.

Definition domain (s : list ascii) : Prop := ipLiteral s \/ hostName s.

Definition address (s : list ascii) : Prop :=
  exists l d : list ascii,
    localPart l /\ domain d /\ s = l ++ "@"%char :: d.

(** a string is an address *)
Definition valid (e : string) : Prop := address (list_ascii_of_string e).

End Address.

(** ** The address grammar

    The grammar the Email Validator is held against, written with
    character sets of its own.  An address is a local part, an at sign and
    a domain.  The local part is a sequence of atoms separated by single
    dots, or a quoted string.  A host name is a sequence of labels, each
    followed by a dot, ending in a top-level domain of two letters or
    more. *)

Module Grammar.

Local Open Scope list_scope.

Definition letter (c : ascii) : Prop :=
c ∈ list_ascii_of_string
      "abcdefghijklmnopqrstuvwxyzABCDEFGHIJKLMNOPQRSTUVWXYZ".

Definition digit (c : ascii) : Prop := c ∈ list_ascii_of_string "0123456789".

(** tab, line feed, vertical tab, form feed, carriage return, space and
    no-break space *)
Definition whiteSpace (c : ascii) : Prop :=
nat_of_ascii c ∈ [9; 10; 11; 12; 13; 32; 160]%nat.

(** the characters an atom may not hold *)
Definition special (c : ascii) : Prop :=
c ∈ list_ascii_of_string "<>()[]\.,;:@" \/ c = "034"%char \/ whiteSpace c.

Definition lineBreak (c : ascii) : Prop :=
nat_of_ascii c = 10%nat \/ nat_of_ascii c = 13%nat.

Definition atom (s : list ascii) : Prop :=
s <> [] /\ Forall (fun c => ~ special c) s.

Definition dotAtom (s : list ascii) : Prop :=
exists (a : list ascii) (rest : list (list ascii)),
  atom a /\ Forall atom rest /\
  s = a ++ concat (List.map (fun x => "."%char :: x) rest).

Definition quoted (s : list ascii) : Prop :=
exists body : list ascii,
  body <> [] /\ Forall (fun c => ~ lineBreak c) body /\
  s = "034"%char :: body ++ ["034"%char].

Definition localPart (s : list ascii) : Prop := dotAtom s \/ quoted s.

Definition label (s : list ascii) : Prop :=
s <> [] /\ Forall (fun c => letter c \/ digit c \/ c = "-"%char) s.

Definition tld (s : list ascii) : Prop :=
(2 <= length s)%nat /\ Forall letter s.

(** a domain with at least one dot and a top-level domain *)
Definition hostName (s : list ascii) : Prop :=
exists (labels : list (list ascii)) (t : list ascii),
  labels <> [] /\ Forall label labels /\ tld t /\
  s = concat (List.map (fun l => l ++ ["."%char]) labels) ++ t.

(** one to three digits *)
Definition group (s : list ascii) : Prop :=
(1 <= length s <= 3)%nat /\ Forall digit s.

(** four groups of digits separated by dots, between square brackets *)
Definition ipLiteral (s : list ascii) : Prop :=
exists a b c d : list ascii,
  group a /\ group b /\ group c /\ group d /\
  s = "["%char :: a ++ "."%char :: b ++ "."%char :: c ++ "."%char :: d
        ++ ["]"%char].


(** The grammar whose domain is a host name or a bracketed literal. *)
Definition address (s : list ascii) : Prop :=
exists l d : list ascii,
  localPart l /\ (hostName d \/ ipLiteral d) /\ s = l ++ "@"%char :: d.

End Grammar.

(** ** App.tsx: the passes of [executeSearch] *)

(** The identifier a lead of the collection enters [existingIds] with. *)
Definition existingId (l : Lead.t) : string :=
  if Lead.email l =? "NULL" then Lead.linkedin l else Lead.email l.

(** [new Set(leads.map(l => l.email === "NULL" ? l.linkedin : l.email))] *)
Definition existingIdsOf (leads : list Lead.t) : gset string :=
  list_to_set (List.map existingId leads).

(** The callback of the validation pass. *)
Definition validate (lead : Lead.t) : Lead.t :=
  if negb (Lead.email lead =? "NULL") && negb (isValidEmail (Lead.email lead))
  then {| Lead.id := Lead.id lead;
          Lead.firstName := Lead.firstName lead;
          Lead.lastName := Lead.lastName lead;
          Lead.email := "NULL";
          Lead.phone := Lead.phone lead;
          Lead.jobTitle := Lead.jobTitle lead;
          Lead.companyName := Lead.companyName lead;
          Lead.location := Lead.location lead;
          Lead.linkedin := Lead.linkedin lead;
          Lead.website := Lead.website lead;
          Lead.emailConfidence := Low;
          Lead.source := Lead.source lead |}
  else lead.

Definition validatedLeads (newLeads : list Lead.t) : list Lead.t :=
  List.map validate newLeads.

(** [lead.email !== "NULL" ? lead.email : lead.linkedin] *)
Definition identifier (lead : Lead.t) : string :=
  if negb (Lead.email lead =? "NULL") then Lead.email lead else Lead.linkedin lead.

(** The callback of the duplicate filter. *)
Definition isUnique (existingIds : gset string) (lead : Lead.t) : bool :=
  let id := identifier lead in
  if negb (Js.truthy id) then true
  else negb (bool_decide (id ∈ existingIds)).

Definition uniqueNewLeads (existingIds : gset string) (validated : list Lead.t)
  : list Lead.t :=
  List.filter (isUnique existingIds) validated.

(** ** App.tsx: the state of the component *)

Module Status.
Import ScoutStatus.

Definition initial : t :=
  {| isSearching := false; isLooping := false; totalFound := 0;
     lastSearchTime := None; logs := [] |}.

Definition withSearching (b : bool) (prev : t) : t :=
  {| isSearching := b; isLooping := isLooping prev;
     totalFound := totalFound prev; lastSearchTime := lastSearchTime prev;
     logs := logs prev |}.

Definition withLooping (b : bool) (prev : t) : t :=
  {| isSearching := isSearching prev; isLooping := b;
     totalFound := totalFound prev; lastSearchTime := lastSearchTime prev;
     logs := logs prev |}.

Definition withTotalFound (n : nat) (prev : t) : t :=
  {| isSearching := isSearching prev; isLooping := isLooping prev;
     totalFound := n; lastSearchTime := lastSearchTime prev;
     logs := logs prev |}.

Definition withLastSearchTime (time : string) (prev : t) : t :=
  {| isSearching := isSearching prev; isLooping := isLooping prev;
     totalFound := totalFound prev; lastSearchTime := Some time;
     logs := logs prev |}.

Definition withLogs (l : list string) (prev : t) : t :=
  {| isSearching := isSearching prev; isLooping := isLooping prev;
     totalFound := totalFound prev; lastSearchTime := lastSearchTime prev;
     logs := l |}.
End Status.

(** The item of [localStorage] under the key [hasan_scout_leads]: text on
    which [JSON.parse] throws, or the serialisation of a collection of
    leads, which [JSON.parse] reads back as that collection.  Text that
    parses to anything else is not modelled: the component would throw on
    rendering it and no state would follow. *)
Inductive Stored : Type :=
| Malformed
| Serialized (leads : list Lead.t).

(** The state hooks of [App] and what the component acts on: the durable
    store, the alerts shown (newest first), the alerts [setTimeout] has
    scheduled, and the [findLeads] calls being awaited, each with the
    [existingIds] its cycle captured.  [leadsChanged] records that
    [setLeads] was called since the last render, so that the effect on
    [[leads]] is due. *)
Record App : Type := mkApp {
  leads : list Lead.t;
  status : ScoutStatus.t;
  currentCriteria : option SearchCriteria.t;
  quotaHit : bool;
  localStorage : option Stored;
  alerts : list string;
  timers : list string;
  pending : list (gset string);
  leadsChanged : bool
}.

Definition setLeads (f : list Lead.t -> list Lead.t) (a : App) : App :=
  mkApp (f (leads a)) (status a) (currentCriteria a) (quotaHit a)
        (localStorage a) (alerts a) (timers a) (pending a) true.

Definition setStatus (f : ScoutStatus.t -> ScoutStatus.t) (a : App) : App :=
  mkApp (leads a) (f (status a)) (currentCriteria a) (quotaHit a)
        (localStorage a) (alerts a) (timers a) (pending a) (leadsChanged a).

Definition setCurrentCriteria (c : SearchCriteria.t) (a : App) : App :=
  mkApp (leads a) (status a) (Some c) (quotaHit a)
        (localStorage a) (alerts a) (timers a) (pending a) (leadsChanged a).

Definition setQuotaHit (b : bool) (a : App) : App :=
  mkApp (leads a) (status a) (currentCriteria a) b
        (localStorage a) (alerts a) (timers a) (pending a) (leadsChanged a).

(** [localStorage.setItem('hasan_scout_leads', ...)] and [removeItem] *)
Definition writeStorage (v : option Stored) (a : App) : App :=
  mkApp (leads a) (status a) (currentCriteria a) (quotaHit a)
        v (alerts a) (timers a) (pending a) (leadsChanged a).

Definition alert (msg : string) (a : App) : App :=
  mkApp (leads a) (status a) (currentCriteria a) (quotaHit a)
        (localStorage a) (msg :: alerts a) (timers a) (pending a)
        (leadsChanged a).

(** [setTimeout(() => alert(msg), 100)] *)
Definition alertLater (msg : string) (a : App) : App :=
  mkApp (leads a) (status a) (currentCriteria a) (quotaHit a)
        (localStorage a) (alerts a) (timers a ++ [msg]) (pending a)
        (leadsChanged a).

Definition setPending (p : list (gset string)) (a : App) : App :=
  mkApp (leads a) (status a) (currentCriteria a) (quotaHit a)
        (localStorage a) (alerts a) (timers a) p (leadsChanged a).

Definition rendered (a : App) : App :=
  mkApp (leads a) (status a) (currentCriteria a) (quotaHit a)
        (localStorage a) (alerts a) (timers a) (pending a) false.

(** The effect on [[leads]]: persist the collection, recompute the count. *)
Definition leadsEffect (a : App) : App :=
  setStatus (Status.withTotalFound (length (leads a)))
            (writeStorage (Some (Serialized (leads a))) a).

(** The render that follows a handler: the effect runs when [setLeads]
    was called. *)
Definition render (a : App) : App :=
  if leadsChanged a then leadsEffect (rendered a) else a.

Definition addLog (msg : string) (a : App) : App :=
  setStatus (fun prev =>
    Status.withLogs (take 5 (msg :: ScoutStatus.logs prev)) prev) a.

(** ** App.tsx: the handlers *)

(** [executeSearch] up to its [await]. *)
Definition executeSearch (criteria : SearchCriteria.t) (a : App) : App :=
  if quotaHit a
  then alert "Daily quota reached. Please try again tomorrow." a
  else
    let a1 := setStatus (Status.withSearching true) a in
    let a2 := addLog "Initiating Scout Sequence..." a1 in
    let existingIds := existingIdsOf (leads a) in
    setPending (pending a2 ++ [existingIds]) a2.

Definition quotaAlert : string :=
  "DAILY LIMIT REACHED: Google Search Grounding quota exceeded."
  +:+ Js.newline +:+ Js.newline +:+
  "Automation paused. Try again in 24 hours.".

(** [executeSearch] from the point where the awaited [findLeads] settles
    with [r]; [now] is [new Date().toLocaleTimeString()]. *)
Definition resume (existingIds : gset string) (r : Thrown + list Lead.t)
    (now : string) (a : App) : App :=
  match r with
  | inr newLeads =>
      let validated := validatedLeads newLeads in
      let unique := uniqueNewLeads existingIds validated in
      let a1 :=
        if (0 <? length unique)%nat
        then addLog ("Scout returned " +:+ pretty (length unique)
                       +:+ " new agents.")
                    (setLeads (fun prev => (unique ++ prev)%list) a)
        else addLog "Scout returned no new unique leads this cycle." a in
      setStatus (fun prev =>
        Status.withLastSearchTime now (Status.withSearching false prev)) a1
  | inl error =>
      if match thrownMessage error with
         | Some m => m =? "QUOTA_EXCEEDED"
         | None => false
         end
      then
        let logMsg := "CRITICAL: Daily Search Quota Hit (100/day). Pausing." in
        let a1 := setStatus (fun prev =>
                    Status.withSearching false (Status.withLooping false prev)) a in
        let a2 := setQuotaHit true a1 in
        let a3 := addLog logMsg a2 in
        alertLater quotaAlert a3
      else
        let a1 := addLog "Scout encountered an error." a in
        setStatus (Status.withSearching false) a1
  end.

Definition handleSearch (criteria : SearchCriteria.t) (a : App) : App :=
  executeSearch criteria (setCurrentCriteria criteria a).

Definition toggleLoop (a : App) : App :=
  if negb (bool_decide (is_Some (currentCriteria a)))
     && negb (ScoutStatus.isLooping (status a))
  then alert "Please perform a search first to set criteria." a
  else if quotaHit a
  then alert "Cannot loop: Quota exceeded." a
  else setStatus (fun prev =>
         Status.withLooping (negb (ScoutStatus.isLooping prev)) prev) a.

(** [confirmed] is what [window.confirm] returned. *)
Definition clearData (confirmed : bool) (a : App) : App :=
  if confirmed
  then writeStorage None (setLeads (fun _ => []) a)
  else a.

Definition copyEmails (a : App) : App :=
  addLog "Valid emails copied to clipboard." a.

(** The callback of the 60 s interval; the interval exists while the
    condition of the looping effect holds. *)
Definition tick (a : App) : App :=
  match currentCriteria a with
  | Some criteria =>
      if ScoutStatus.isLooping (status a)
         && negb (ScoutStatus.isSearching (status a)) && negb (quotaHit a)
      then
        if (length (leads a) <? SearchCriteria.resultsAmount criteria)%nat
        then executeSearch criteria a
        else addLog "Goal reached. Looping disabled."
                    (setStatus (Status.withLooping false) a)
      else a
  | None => a
  end.

(** The button [+ Find More Now], rendered under its condition. *)
Definition findMore (a : App) : App :=
  match currentCriteria a with
  | Some criteria =>
      if negb (ScoutStatus.isSearching (status a)) && negb (quotaHit a)
      then executeSearch criteria a
      else a
  | None => a
  end.

(** The [i]-th awaited call settles. *)
Definition settle (i : nat) (r : Thrown + list Lead.t) (now : string)
    (a : App) : App :=
  match pending a !! i with
  | Some existingIds => resume existingIds r now (setPending (delete i (pending a)) a)
  | None => a
  end.

(** The oldest scheduled alert is shown. *)
Definition timerFires (a : App) : App :=
  match timers a with
  | msg :: rest =>
      alert msg (mkApp (leads a) (status a) (currentCriteria a) (quotaHit a)
                       (localStorage a) (alerts a) rest (pending a)
                       (leadsChanged a))
  | [] => a
  end.

(** What happens to the component: the user's intents, the interval, the
    provider's answers and the timers. *)
Inductive Event : Type :=
| Submit (criteria : SearchCriteria.t)
| FindMore
| Tick
| Settle (i : nat) (apiKey : option string) (uuid : nat -> string)
         (g : GatewayResult) (now : string)
| ToggleLoop
| ClearData (confirmed : bool)
| CopyEmails
| TimerFires.

Definition handle (ev : Event) (a : App) : App :=
  match ev with
  | Submit criteria => handleSearch criteria a
  | FindMore => findMore a
  | Tick => tick a
  | Settle i apiKey uuid g now => settle i (findLeads apiKey uuid g) now a
  | ToggleLoop => toggleLoop a
  | ClearData confirmed => clearData confirmed a
  | CopyEmails => copyEmails a
  | TimerFires => timerFires a
  end.

(** One transition: the handler, then the render with its effects. *)
Definition step (a : App) (ev : Event) : App := render (handle ev a).

Definition run (a : App) (evs : list Event) : App := fold_left step evs a.

(** The first render and its two effects, in order: the load effect reads
    the store, the effect on [[leads]] persists the empty collection of the
    first render; the loaded collection, if any, is rendered next. *)
Definition mount (stored : option Stored) : App :=
  let a0 := mkApp [] Status.initial None false stored [] [] [] false in
  let a1 := leadsEffect a0 in
  match stored with
  | Some (Serialized saved) => render (setLeads (fun _ => saved) a1)
  | _ => a1
  end.

Inductive reachable : App -> Prop :=
| reachable_mount stored : reachable (mount stored)
| reachable_step a ev : reachable a -> reachable (step a ev).

(** ** Vocabulary of the statements *)

(** [needle] occurs in [s]. *)
Definition Substring (needle s : string) : Prop :=
  exists pre post : string, s = pre +:+ needle +:+ post.

(** The text of an error's message, empty when it has none. *)
Definition messageText (error : ProviderError.t) : string :=
  match ProviderError.message error with
  | Some m => m
  | None => ""
  end.

(** The signs of an exhausted quota [findLeads] looks for: three tokens in
    the message, the number 429 as the status (or as the code when the
    status is falsy), two tokens in the property dump. *)
Definition QuotaSignal (error : ProviderError.t) : Prop :=
  Substring "RESOURCE_EXHAUSTED" (messageText error) \/
  Substring "429" (messageText error) \/
  Substring "quota" (messageText error) \/
  ProviderError.status error = Js.Num 429 \/
  (Js.truthyValue (ProviderError.status error) = false /\
   ProviderError.code error = Js.Num 429) \/
  Substring "RESOURCE_EXHAUSTED" (ProviderError.errBody error) \/
  Substring "search_grounding_request_per_project_per_day_per_user"
            (ProviderError.errBody error).

(** A property of a raw record is missing when it is absent or empty. *)
Definition missing (v : option string) : Prop := v = None \/ v = Some "".

(** A lead has no identifier when its email is the sentinel and its
    linkedin is empty. *)
Definition anonymous (lead : Lead.t) : Prop :=
  Lead.email lead = "NULL" /\ Lead.linkedin lead = "".

(** A lead is a known one when it has an identifier and the identifier is
    among the existing ones. *)
Definition known (existingIds : gset string) (lead : Lead.t) : Prop :=
  ~ anonymous lead /\ identifier lead ∈ existingIds.

#[local] Instance known_dec existingIds lead : Decision (known existingIds lead).
Proof. unfold known, anonymous. apply _. Defined.

(** [lead'] is [lead] with the email and the confidence replaced. *)
Definition downgradeOf (lead lead' : Lead.t) : Prop :=
  Lead.email lead' = "NULL" /\ Lead.emailConfidence lead' = Low /\
  Lead.id lead' = Lead.id lead /\
  Lead.firstName lead' = Lead.firstName lead /\
  Lead.lastName lead' = Lead.lastName lead /\
  Lead.phone lead' = Lead.phone lead /\
  Lead.jobTitle lead' = Lead.jobTitle lead /\
  Lead.companyName lead' = Lead.companyName lead /\
  Lead.location lead' = Lead.location lead /\
  Lead.linkedin lead' = Lead.linkedin lead /\
  Lead.website lead' = Lead.website lead /\
  Lead.source lead' = Lead.source lead.

(** What every state the component reaches satisfies. *)
Definition Inv (a : App) : Prop :=
  ScoutStatus.totalFound (status a) = length (leads a) /\
  leadsChanged a = false /\
  (ScoutStatus.isLooping (status a) = true -> is_Some (currentCriteria a)) /\
  (quotaHit a = true -> ScoutStatus.isLooping (status a) = false).

(** ** Sample inputs *)

Module Sample.

(** a record with no property at all *)
Definition emptyRecord : RawLead.t :=
  RawLead.mk None None None None None None None None None None.

Definition uuid (i : nat) : string := "lead-" +:+ pretty i.

Definition quoteJson (s : string) : string :=
  String Js.dquote (s +:+ String Js.dquote EmptyString).

(** an [Error] whose message names the quota with a capital letter *)
Definition capitalQuota : ProviderError.t :=
  {| ProviderError.message := Some "Quota exceeded for today";
     ProviderError.status := Js.Undefined;
     ProviderError.code := Js.Undefined;
     ProviderError.errBody :=
       "{" +:+ quoteJson "stack" +:+ ":"
           +:+ quoteJson "Error: Quota exceeded for today" +:+ ","
           +:+ quoteJson "message" +:+ ":"
           +:+ quoteJson "Quota exceeded for today" +:+ "}" |}.

(** the provider's answer to a request over the daily limit *)
Definition exhausted : ProviderError.t :=
  {| ProviderError.message := Some "429 RESOURCE_EXHAUSTED";
     ProviderError.status := Js.Num 429;
     ProviderError.code := Js.Undefined;
     ProviderError.errBody :=
       "{" +:+ quoteJson "stack" +:+ ":"
           +:+ quoteJson "Error: 429 RESOURCE_EXHAUSTED" +:+ ","
           +:+ quoteJson "message" +:+ ":"
           +:+ quoteJson "429 RESOURCE_EXHAUSTED" +:+ ","
           +:+ quoteJson "status" +:+ ":429}" |}.

(** a lead the provider calls verified, with a malformed email *)
Definition badLead : Lead.t :=
  {| Lead.id := "lead-0"; Lead.firstName := "Ada"; Lead.lastName := "Byron";
     Lead.email := "bad@@@x"; Lead.phone := "NULL"; Lead.jobTitle := "CTO";
     Lead.companyName := "Engines"; Lead.location := "London";
     Lead.linkedin := ""; Lead.website := "";
     Lead.emailConfidence := Verified; Lead.source := Some "Gemini Search" |}.

Definition record (first mail : string) : RawLead.t :=
  RawLead.mk (Some first) (Some "Byron") (Some mail) None (Some "CTO")
             (Some "Engines") None None None (Some "High").

(** a batch in which two records carry the same email *)
Definition twins : list RawLead.t :=
  [record "Ada" "ada@engines.co"; record "Augusta" "ada@engines.co"].

Definition criteria : SearchCriteria.t :=
  SearchCriteria.mk "CTO" "SaaS" "Technology" "London" true 50.

(** a session in which the first search hit the quota *)
Definition haltedSession : App :=
  step (step (mount None) (Submit criteria))
       (Settle 0 (Some "key") uuid (Failed exhausted) "10:00:00").

End Sample.

(** ** More of JavaScript's strings and arrays *)

Module Str.

(** [s.split(sep)] for a separator of one character *)
Fixpoint split (sep : ascii) (s : string) : list string :=
match s with
| EmptyString => [EmptyString]
| String c s' =>
    if (c =? sep)%char then EmptyString :: split sep s'
    else match split sep s' with
         | first :: rest => String c first :: rest
         | [] => [String c EmptyString]
         end
end.

(** [l.join(sep)] *)
Fixpoint join (sep : string) (l : list string) : string :=
match l with
| [] => EmptyString
| [x] => x
| x :: rest => x +:+ sep +:+ join sep rest
end.

(** White space and line terminators, which [trim] removes, on the code
    units below 256. *)
Definition isBlank (c : ascii) : bool :=
Js.between 9 13 c || (Js.code c =? 32)%nat || (Js.code c =? 160)%nat.

Fixpoint trimStart (s : string) : string :=
match s with
| EmptyString => EmptyString
| String c s' => if isBlank c then trimStart s' else s
end.

Fixpoint trimEnd (s : string) : string :=
match s with
| EmptyString => EmptyString
| String c s' =>
    let t := trimEnd s' in
    if isBlank c && negb (Js.truthy t) then EmptyString else String c t
end.

(** [s.trim()] *)
Definition trim (s : string) : string := trimEnd (trimStart s).

End Str.

(** A [Set] of strings as the sequence of its elements in insertion order,
    which is the order [Array.from] lists them in. *)
Module OrderedSet.

Definition add (s : list string) (x : string) : list string :=
if bool_decide (x ∈ s) then s else (s ++ [x])%list.

(** [new Set(l)] *)
Definition from (l : list string) : list string := fold_left add l [].

End OrderedSet.

(** ** services/geminiService.ts: the exclusion list of the prompt *)

(** The elements of [existingIds], in order, for a cycle that starts on
    [leads]. *)
Definition existingIdsInOrder (leads : list Lead.t) : list string :=
OrderedSet.from (List.map existingId leads).

(** [Array.from(existingEmails).slice(0, 50)] *)
Definition excluded (existingEmails : list string) : list string :=
take 50 existingEmails.

(** [Array.from(existingEmails).slice(0, 50).join(', ')], the list the
    system instruction tells the provider to ignore *)
Definition exclusionText (existingEmails : list string) : string :=
Str.join ", " (excluded existingEmails).

(** ** App.tsx: the exports *)

(** The text of a confidence, as the [Lead] type spells it. *)
Definition confidenceText (c : Confidence) : string :=
match c with
| Verified => "Verified"
| High => "High"
| Low => "Low"
| Estimated => "Estimated"
end.

(** The emails [copyEmails] keeps, before they are joined. *)
Definition emailsToCopy (leads : list Lead.t) : list string :=
List.filter (fun e => negb (e =? "NULL") && isValidEmail e)
            (List.map Lead.email leads).

(** What [copyEmails] writes to the clipboard. *)
Definition clipboardText (leads : list Lead.t) : string :=
Str.join Js.newline (emailsToCopy leads).

Definition csvHeaders : list string :=
["First Name"; "Last Name"; "Email"; "Job Title"; "Company"; "Location";
 "Phone"; "LinkedIn"; "Website"; "Confidence"].

(** A row of [rows] in [downloadCSV]. *)
Definition csvRow (l : Lead.t) : list string :=
[Lead.firstName l; Lead.lastName l; Lead.email l; Lead.jobTitle l;
 Lead.companyName l; Lead.location l; Lead.phone l; Lead.linkedin l;
 Lead.website l; confidenceText (Lead.emailConfidence l)].

(** A cell between double quotes. *)
Definition quoteCell (c : string) : string :=
String Js.dquote (c +:+ String Js.dquote EmptyString).

Definition csvLine (e : list string) : string :=
Str.join "," (List.map quoteCell e).

(** [csvContent] in [downloadCSV], the text handed to [encodeURI]. *)
Definition csvContent (leads : list Lead.t) : string :=
"data:text/csv;charset=utf-8," +:+
Str.join Js.newline
  (Str.join "," csvHeaders :: List.map csvLine (List.map csvRow leads)).

(** ** components/SearchForm.tsx *)

Module SearchForm.

(** What a property of [formData] holds: the value of a text input or of
    the select, the state of the checkbox, or a number of the initial
    state. *)
Inductive Field : Type :=
| Text (s : string)
| Flag (b : bool)
| Number (n : nat).

(** The two state hooks of the form; both objects are maps from property
    names. *)
Record t : Type := mk {
  formData : gmap string Field;
  inputErrors : gmap string string
}.

Definition initial : t :=
{| formData :=
     <["targetRoles" := Text "Software Engineer, Product Manager"]>
    (<["keywords" := Text "SaaS, B2B, React"]>
    (<["industries" := Text "Technology"]>
    (<["location" := Text "San Francisco, CA"]>
    (<["includeContactInfo" := Flag true]>
    (<["resultsAmount" := Number 50]> ∅)))));
   inputErrors := ∅ |}.

(** the class of the local part of [emailRegex], under the flag [i]:
    letters, digits, dot, underscore, percent, plus and hyphen *)
Definition isLocalChar (c : ascii) : bool :=
EmailRe.isAlpha c || EmailRe.isDigit c || (c =? ".")%char || (c =? "_")%char ||
(c =? "%")%char || (c =? "+")%char || (c =? "-")%char.

(** the class of the domain of [emailRegex], under the flag [i]: letters,
    digits, dot and hyphen *)
Definition isDomainChar (c : ascii) : bool :=
EmailRe.isAlpha c || EmailRe.isDigit c || (c =? ".")%char || (c =? "-")%char.

(** [emailRegex] up to its [$]: a local part, an at sign, a domain, a dot
    and two letters or more. *)
Definition emailRegex : Re.regex :=
Re.Cat (Re.Plus (Re.Cls isLocalChar))
(Re.Cat (Re.Chr "@")
(Re.Cat (Re.Plus (Re.Cls isDomainChar))
(Re.Cat (Re.Chr ".") (Re.AtLeast2 (Re.Cls EmailRe.isAlpha))))).

(** [emailRegex.test(s)]: the pattern is anchored at the end only, so the
    match may start anywhere. *)
Definition testEmail (s : string) : bool :=
Re.test (Re.Cat (Re.Star (Re.Cls (fun _ => true))) emailRegex) s.

(** The body of [parts.forEach] in [handleChange]. *)
Definition checkPart (error part : string) : string :=
let trimmed := Str.trim part in
if Js.includes trimmed "@" && negb (testEmail trimmed)
then "Invalid email format in keywords: " +:+ trimmed
else error.

(** The error [handleChange] computes for the keywords input. *)
Definition keywordsError (value : string) : string :=
fold_left checkPart (Str.split "," value) "".

(** [handleChange] for the event of an input: its [name], [value] and
    [type], and [checked] for a checkbox. *)
Definition handleChange (name value type : string) (checked : bool) (st : t)
  : t :=
{| formData :=
     <[name := if type =? "checkbox" then Flag checked else Text value]>
       (formData st);
   inputErrors :=
     if name =? "keywords"
     then <["keywords" := keywordsError value]> (inputErrors st)
     else inputErrors st |}.

(** [Object.values(inputErrors).some(err => err)] *)
Definition hasError (errors : gmap string string) : bool :=
existsb (fun kv => Js.truthy (snd kv)) (map_to_list errors).

(** [handleSubmit]: the criteria handed to [onSearch], if any. *)
Definition handleSubmit (st : t) : option (gmap string Field) :=
if hasError (inputErrors st) then None else Some (formData st).

(** An edit of an input. *)
Record Edit : Type := edit {
  name : string;
  value : string;
  type : string;
  checked : bool
}.

Definition apply (st : t) (e : Edit) : t :=
handleChange (name e) (value e) (type e) (checked e) st.

(** The form after a sequence of edits. *)
Definition after (edits : list Edit) : t := fold_left apply edits initial.

(** The shape [emailRegex] looks for. *)
Definition shape (m : list ascii) : Prop :=
exists l d t : list ascii,
  l <> [] /\ Address.chars isLocalChar l /\
  d <> [] /\ Address.chars isDomainChar d /\
  (2 <= length t)%nat /\ Address.chars EmailRe.isAlpha t /\
  m = (l ++ "@"%char :: d ++ "."%char :: t)%list.

(** A text ends in something of that shape. *)
Definition endsInShape (s : string) : Prop :=
exists pre m : list ascii, list_ascii_of_string s = (pre ++ m)%list /\ shape m.

(** A part of the keywords passes the check. *)
Definition partOk (part : string) : Prop :=
Substring "@" (Str.trim part) -> endsInShape (Str.trim part).

End SearchForm.

(** ** Vocabulary of the further statements *)

(** The email of a lead is the sentinel or a valid address. *)
Definition wellFormed (lead : Lead.t) : Prop :=
Lead.email lead = "NULL" \/ isValidEmail (Lead.email lead) = true.

(** The whole post-processing of a batch. *)
Definition postProcess (existingIds : gset string) (newLeads : list Lead.t)
  : list Lead.t :=
uniqueNewLeads existingIds (validatedLeads newLeads).

(** The submit button of the form is enabled:
    [disabled={isLoading || loopActive}]. *)
Definition submitEnabled (a : App) : bool :=
negb (ScoutStatus.isSearching (status a) || ScoutStatus.isLooping (status a)).

(** The states reached when the form is submitted only while its button is
    enabled. *)
Inductive uiReachable : App -> Prop :=
| uiReachable_mount stored : uiReachable (mount stored)
| uiReachable_step a ev :
    uiReachable a ->
    (forall criteria, ev = Submit criteria -> submitEnabled a = true) ->
    uiReachable (step a ev).

(** No character of the text is a line feed. *)
Definition oneLine (s : string) : Prop :=
"010"%char ∉ list_ascii_of_string s.

Module Scenario.

Definition wellFormedLead : Lead.t :=
{| Lead.id := "lead-1"; Lead.firstName := "Ada"; Lead.lastName := "Byron";
   Lead.email := "ada@engines.co"; Lead.phone := "NULL"; Lead.jobTitle := "CTO";
   Lead.companyName := "Engines"; Lead.location := "London";
   Lead.linkedin := ""; Lead.website := "";
   Lead.emailConfidence := High; Lead.source := Some "Gemini Search" |}.

Definition anonymousLead : Lead.t :=
{| Lead.id := "lead-2"; Lead.firstName := "Unknown"; Lead.lastName := "";
   Lead.email := "NULL"; Lead.phone := "NULL"; Lead.jobTitle := "Unknown";
   Lead.companyName := "Unknown"; Lead.location := "Unknown";
   Lead.linkedin := ""; Lead.website := "";
   Lead.emailConfidence := Low; Lead.source := Some "Gemini Search" |}.

(** a search is being awaited *)
Definition searching : App := step (mount None) (Submit Sample.criteria).

(** a session with a current criteria and the loop switched on *)
Definition looping : App :=
step (step searching
           (Settle 0 (Some "key") Sample.uuid (Responded Sample.twins) "10:00:00"))
     ToggleLoop.

End Scenario.

(** * Properties *)

(** ** The matcher decides the language of a pattern *)

Section Matcher.
Import Re.
Local Open Scope list_scope.

Lemma Lang_Cat_inv (r1 r2 : regex) (s : list ascii) :
  Lang (Cat r1 r2) s ->
  exists s1 s2, s = s1 ++ s2 /\ Lang r1 s1 /\ Lang r2 s2.
Proof. inversion 1; subst; eauto. Qed.

Lemma Lang_Alt_inv (r1 r2 : regex) (s : list ascii) :
  Lang (Alt r1 r2) s -> Lang r1 s \/ Lang r2 s.
Proof. inversion 1; subst; auto. Qed.

Lemma nullable_Lang (r : regex) : nullable r = true <-> Lang r [].
Proof.
  induction r as [| | p | r1 IH1 r2 IH2 | r1 IH1 r2 IH2 | r IH]; simpl.
  - split; [discriminate | inversion 1].
  - split; [constructor | reflexivity].
  - split; [discriminate | inversion 1].
  - rewrite andb_true_iff, IH1, IH2. split.
    + intros [H1 H2]. exact (LCat _ _ [] [] H1 H2).
    + intros H. apply Lang_Cat_inv in H as (s1 & s2 & Hs & H1 & H2).
      symmetry in Hs. apply app_eq_nil in Hs as [-> ->]. auto.
  - rewrite orb_true_iff, IH1, IH2. split.
    + intros [H | H]; [apply LAltL | apply LAltR]; exact H.
    + intros H. apply Lang_Alt_inv in H. exact H.
  - split; [constructor | reflexivity].
Qed.

Lemma Lang_deriv (r : regex) (s' : list ascii) :
  Lang r s' -> forall c s, s' = c :: s -> Lang (deriv c r) s.
Proof.
  induction 1 as [| p c0 Hp | r1 r2 s1 s2 H1 IH1 H2 IH2 | r1 r2 s0 H IH
                  | r1 r2 s0 H IH | r | r s1 s2 H1 IH1 H2 IH2];
    intros c s Hs; simpl.
  - discriminate.
  - injection Hs as -> <-. rewrite Hp. constructor.
  - destruct s1 as [| c1 s1].
    + simpl in Hs. apply nullable_Lang in H1. rewrite H1.
      apply LAltR. apply IH2, Hs.
    + simpl in Hs. injection Hs as -> <-.
      assert (Lang (Cat (deriv c r1) r2) (s1 ++ s2)) as HC
        by (apply LCat; [apply IH1; reflexivity | exact H2]).
      destruct (nullable r1); [apply LAltL |]; exact HC.
  - apply LAltL, IH, Hs.
  - apply LAltR, IH, Hs.
  - discriminate.
  - destruct s1 as [| c1 s1].
    + simpl in Hs. exact (IH2 c s Hs).
    + simpl in Hs. injection Hs as -> <-.
      apply LCat; [apply IH1; reflexivity | exact H2].
Qed.

Lemma deriv_Lang (r : regex) :
  forall c s, Lang (deriv c r) s -> Lang r (c :: s).
Proof.
  induction r as [| | p | r1 IH1 r2 IH2 | r1 IH1 r2 IH2 | r IH];
    intros c s H; simpl in H.
  - inversion H.
  - inversion H.
  - destruct (p c) eqn:Hp; inversion H; subst. constructor. exact Hp.
  - assert (forall t, Lang (Cat (deriv c r1) r2) t -> Lang (Cat r1 r2) (c :: t))
      as HC.
    { intros t Ht. apply Lang_Cat_inv in Ht as (s1 & s2 & -> & H1 & H2).
      apply (LCat r1 r2 (c :: s1) s2); auto. }
    destruct (nullable r1) eqn:Hn.
    + apply Lang_Alt_inv in H as [H | H]; [auto |].
      apply (LCat r1 r2 [] (c :: s)); [apply nullable_Lang, Hn | auto].
    + auto.
  - apply Lang_Alt_inv in H as [H | H]; [apply LAltL | apply LAltR]; auto.
  - apply Lang_Cat_inv in H as (s1 & s2 & -> & H1 & H2).
    apply (LStarCons r (c :: s1) s2); auto.
Qed.

Lemma matches_Lang (s : list ascii) :
  forall r, matches r s = true <-> Lang r s.
Proof.
  induction s as [| c s IH]; intros r; simpl.
  - apply nullable_Lang.
  - rewrite IH. split.
    + apply deriv_Lang.
    + intros H. exact (Lang_deriv _ _ H c s eq_refl).
Qed.

End Matcher.

(** ** The pattern of [isValidEmail] denotes the address grammar *)

Section Grammar.
Import Re.
Local Open Scope list_scope.

Lemma Lang_Eps_iff (s : list ascii) : Lang Eps s <-> s = [].
Proof. split; [inversion 1; reflexivity | intros ->; constructor]. Qed.

Lemma Lang_Cls_iff (p : ascii -> bool) (s : list ascii) :
  Lang (Cls p) s <-> exists c, s = [c] /\ p c = true.
Proof.
  split.
  - inversion 1; subst; eauto.
  - intros (c & -> & Hp). constructor. exact Hp.
Qed.

Lemma Lang_Chr_iff (c : ascii) (s : list ascii) : Lang (Chr c) s <-> s = [c].
Proof.
  unfold Chr. rewrite Lang_Cls_iff. split.
  - intros (c' & -> & Hc). apply Ascii.eqb_eq in Hc. congruence.
  - intros ->. exists c. split; [reflexivity | apply Ascii.eqb_refl].
Qed.

Lemma Lang_Cat_iff (r1 r2 : regex) (s : list ascii) :
  Lang (Cat r1 r2) s <->
  exists s1 s2, s = s1 ++ s2 /\ Lang r1 s1 /\ Lang r2 s2.
Proof.
  split; [apply Lang_Cat_inv |].
  intros (s1 & s2 & -> & H1 & H2). constructor; assumption.
Qed.

Lemma Lang_Alt_iff (r1 r2 : regex) (s : list ascii) :
  Lang (Alt r1 r2) s <-> Lang r1 s \/ Lang r2 s.
Proof.
  split; [apply Lang_Alt_inv |].
  intros [H | H]; [apply LAltL | apply LAltR]; exact H.
Qed.

Lemma Lang_Opt_iff (r : regex) (s : list ascii) :
  Lang (Opt r) s <-> s = [] \/ Lang r s.
Proof. unfold Opt. rewrite Lang_Alt_iff, Lang_Eps_iff. reflexivity. Qed.

Lemma Lang_Star_iff (r : regex) (s : list ascii) :
  Lang (Star r) s <-> exists ss, Forall (Lang r) ss /\ s = concat ss.
Proof.
  split.
  - intros H. remember (Star r) as r' eqn:Hr.
    induction H as [| | | | | r0 | r0 s1 s2 H1 _ H2 IH2]; try discriminate.
    + exists []. split; [constructor | reflexivity].
    + injection Hr as ->. destruct (IH2 eq_refl) as (ss & Hss & ->).
      exists (s1 :: ss). split; [constructor; assumption | reflexivity].
  - intros (ss & Hss & ->). induction Hss as [| s1 ss H1 _ IH]; simpl.
    + constructor.
    + constructor; assumption.
Qed.

Lemma Lang_Plus_iff (r : regex) (s : list ascii) :
  Lang (Plus r) s <->
  exists ss, ss <> [] /\ Forall (Lang r) ss /\ s = concat ss.
Proof.
  unfold Plus. rewrite Lang_Cat_iff. split.
  - intros (s1 & s2 & -> & H1 & H2).
    apply Lang_Star_iff in H2 as (ss & Hss & ->).
    exists (s1 :: ss). split; [discriminate |].
    split; [constructor; assumption | reflexivity].
  - intros (ss & Hne & Hss & ->). destruct Hss as [| s1 ss H1 Hss]; [done |].
    exists s1, (concat ss). split; [reflexivity |]. split; [exact H1 |].
    apply Lang_Star_iff. eauto.
Qed.

Lemma Lang_Star_Cls (p : ascii -> bool) (s : list ascii) :
  Lang (Star (Cls p)) s <-> Address.chars p s.
Proof.
  rewrite Lang_Star_iff. unfold Address.chars. split.
  - intros (ss & Hss & ->). induction Hss as [| s1 ss H1 _ IH]; simpl.
    + constructor.
    + apply Lang_Cls_iff in H1 as (c & -> & Hp). constructor; assumption.
  - induction 1 as [| c s Hc _ (ss & Hss & ->)].
    + exists []. split; [constructor | reflexivity].
    + exists ([c] :: ss). split; [| reflexivity].
      constructor; [| exact Hss]. apply Lang_Cls_iff. eauto.
Qed.

Lemma Lang_Plus_Cls (p : ascii -> bool) (s : list ascii) :
  Lang (Plus (Cls p)) s <-> s <> [] /\ Address.chars p s.
Proof.
  unfold Plus. rewrite Lang_Cat_iff. split.
  - intros (s1 & s2 & -> & H1 & H2).
    apply Lang_Cls_iff in H1 as (c & -> & Hp). apply Lang_Star_Cls in H2.
    split; [discriminate | constructor; assumption].
  - intros [Hne H]. destruct H as [| c s Hc Hs]; [done |].
    exists [c], s. split; [reflexivity |].
    split; [apply Lang_Cls_iff; eauto | apply Lang_Star_Cls, Hs].
Qed.

Lemma Lang_Rep13_Cls (p : ascii -> bool) (s : list ascii) :
  Lang (Rep13 (Cls p)) s <->
  (1 <= length s <= 3)%nat /\ Address.chars p s.
Proof.
  unfold Rep13, Address.chars. split.
  - intros H.
    apply Lang_Cat_iff in H as (s1 & s2 & -> & H1 & H2).
    apply Lang_Cls_iff in H1 as (c1 & -> & Hp1).
    apply Lang_Opt_iff in H2 as [-> | H2].
    { split; [simpl; lia | repeat constructor; assumption]. }
    apply Lang_Cat_iff in H2 as (s2' & s3 & -> & H2 & H3).
    apply Lang_Cls_iff in H2 as (c2 & -> & Hp2).
    apply Lang_Opt_iff in H3 as [-> | H3].
    { split; [simpl; lia | repeat constructor; assumption]. }
    apply Lang_Cls_iff in H3 as (c3 & -> & Hp3).
    split; [simpl; lia | repeat constructor; assumption].
  - intros [Hlen H].
    destruct s as [| c1 [| c2 [| c3 [| c4 s]]]]; simpl in Hlen; try lia.
    + apply Forall_cons_1 in H as [H1 _].
      apply (LCat _ _ [c1] []); [constructor; assumption |].
      apply Lang_Opt_iff. left. reflexivity.
    + apply Forall_cons_1 in H as [H1 H]. apply Forall_cons_1 in H as [H2 _].
      apply (LCat _ _ [c1] [c2]); [constructor; assumption |].
      apply Lang_Opt_iff. right.
      apply (LCat _ _ [c2] []); [constructor; assumption |].
      apply Lang_Opt_iff. left. reflexivity.
    + apply Forall_cons_1 in H as [H1 H]. apply Forall_cons_1 in H as [H2 H].
      apply Forall_cons_1 in H as [H3 _].
      apply (LCat _ _ [c1] [c2; c3]); [constructor; assumption |].
      apply Lang_Opt_iff. right.
      apply (LCat _ _ [c2] [c3]); [constructor; assumption |].
      apply Lang_Opt_iff. right. constructor. assumption.
Qed.

Lemma Lang_AtLeast2_Cls (p : ascii -> bool) (s : list ascii) :
  Lang (AtLeast2 (Cls p)) s <-> (2 <= length s)%nat /\ Address.chars p s.
Proof.
  unfold AtLeast2, Address.chars. split.
  - intros H.
    apply Lang_Cat_iff in H as (s1 & s2 & -> & H1 & H2).
    apply Lang_Cat_iff in H2 as (s2' & s3 & -> & H2 & H3).
    apply Lang_Cls_iff in H1 as (c1 & -> & Hp1).
    apply Lang_Cls_iff in H2 as (c2 & -> & Hp2).
    apply Lang_Star_Cls in H3.
    split; [simpl; lia | repeat constructor; assumption].
  - intros [Hlen H].
    destruct s as [| c1 [| c2 s]]; simpl in Hlen; try lia.
    apply Forall_cons_1 in H as [H1 H]. apply Forall_cons_1 in H as [H2 H].
    apply (LCat _ _ [c1] (c2 :: s)); [constructor; assumption |].
    apply (LCat _ _ [c2] s); [constructor; assumption |].
    apply Lang_Star_Cls, H.
Qed.

(** Pieces that are each the image of a well-formed part are the images
    of a list of well-formed parts. *)
Lemma Forall_image {A B : Type} (f : A -> B) (Q : A -> Prop) (ys : list B) :
  Forall (fun y => exists x, Q x /\ y = f x) ys <->
  exists xs, Forall Q xs /\ ys = List.map f xs.
Proof.
  split.
  - induction 1 as [| y ys (x & Hx & ->) _ (xs & Hxs & ->)].
    + exists []. split; [constructor | reflexivity].
    + exists (x :: xs). split; [constructor; assumption | reflexivity].
  - intros (xs & Hxs & ->). induction Hxs as [| x xs Hx _ IH]; simpl.
    + constructor.
    + constructor; eauto.
Qed.

Lemma dotAtom_iff (s : list ascii) :
  Lang EmailRe.dotAtom s <-> Address.dotAtom s.
Proof.
  unfold EmailRe.dotAtom, Address.dotAtom, Address.atom.
  rewrite Lang_Cat_iff. split.
  - intros (a & t & -> & Ha & Ht). apply Lang_Plus_Cls in Ha.
    apply Lang_Star_iff in Ht as (ss & Hss & ->).
    assert (Forall (fun y => exists x, (x <> [] /\ Address.chars EmailRe.isAtomChar x)
                                       /\ y = "."%char :: x) ss) as Himg.
    { eapply Forall_impl; [exact Hss |]. intros y Hy. simpl in Hy.
      apply Lang_Cat_iff in Hy as (d & x & -> & Hd & Hx).
      apply Lang_Chr_iff in Hd as ->. apply Lang_Plus_Cls in Hx. eauto. }
    apply Forall_image in Himg as (rest & Hrest & ->). eauto.
  - intros (a & rest & Ha & Hrest & ->).
    exists a, (concat (List.map (fun x => "."%char :: x) rest)).
    split; [reflexivity |]. split; [apply Lang_Plus_Cls, Ha |].
    apply Lang_Star_iff. eexists. split; [| reflexivity].
    induction Hrest as [| x rest Hx _ IH]; simpl; constructor; [| exact IH].
    apply (LCat _ _ ["."%char] x); [apply Lang_Chr_iff; reflexivity |].
    apply Lang_Plus_Cls, Hx.
Qed.

Lemma quoted_iff (s : list ascii) :
  Lang EmailRe.quoted s <-> Address.quoted s.
Proof.
  unfold EmailRe.quoted, Address.quoted. split.
  - intros H.
    apply Lang_Cat_iff in H as (q1 & t & -> & Hq1 & H).
    apply Lang_Cat_iff in H as (body & q2 & -> & Hbody & Hq2).
    apply Lang_Chr_iff in Hq1 as ->. apply Lang_Chr_iff in Hq2 as ->.
    apply Lang_Plus_Cls in Hbody as [Hne Hbody]. eauto.
  - intros (body & Hne & Hbody & ->).
    apply (LCat _ _ [Js.dquote] (body ++ [Js.dquote]));
      [apply Lang_Chr_iff; reflexivity |].
    apply LCat; [apply Lang_Plus_Cls; auto | apply Lang_Chr_iff; reflexivity].
Qed.

Lemma octet_iff (s : list ascii) :
  Lang (Rep13 (Cls EmailRe.isDigit)) s <-> Address.octet s.
Proof. apply Lang_Rep13_Cls. Qed.

Lemma ipLiteral_iff (s : list ascii) :
  Lang EmailRe.ipLiteral s <-> Address.ipLiteral s.
Proof.
  unfold EmailRe.ipLiteral, Address.ipLiteral. split.
  - intros H.
    apply Lang_Cat_iff in H as (k0 & t0 & -> & Hk0 & H).
    apply Lang_Cat_iff in H as (a & t1 & -> & Ha & H).
    apply Lang_Cat_iff in H as (k1 & t2 & -> & Hk1 & H).
    apply Lang_Cat_iff in H as (b & t3 & -> & Hb & H).
    apply Lang_Cat_iff in H as (k2 & t4 & -> & Hk2 & H).
    apply Lang_Cat_iff in H as (c & t5 & -> & Hc & H).
    apply Lang_Cat_iff in H as (k3 & t6 & -> & Hk3 & H).
    apply Lang_Cat_iff in H as (d & k4 & -> & Hd & Hk4).
    apply Lang_Chr_iff in Hk0 as ->, Hk1 as ->, Hk2 as ->, Hk3 as ->, Hk4 as ->.
    apply octet_iff in Ha, Hb, Hc, Hd.
    exists a, b, c, d. repeat (split; [assumption |]). reflexivity.
  - intros (a & b & c & d & Ha & Hb & Hc & Hd & ->).
    apply octet_iff in Ha, Hb, Hc, Hd.
    apply (LCat _ _ ["["%char]); [apply Lang_Chr_iff; reflexivity |].
    apply LCat; [exact Ha |].
    apply (LCat _ _ ["."%char]); [apply Lang_Chr_iff; reflexivity |].
    apply LCat; [exact Hb |].
    apply (LCat _ _ ["."%char]); [apply Lang_Chr_iff; reflexivity |].
    apply LCat; [exact Hc |].
    apply (LCat _ _ ["."%char]); [apply Lang_Chr_iff; reflexivity |].
    apply LCat; [exact Hd |]. apply Lang_Chr_iff; reflexivity.
Qed.

Lemma hostName_iff (s : list ascii) :
  Lang EmailRe.hostName s <-> Address.hostName s.
Proof.
  unfold EmailRe.hostName, Address.hostName, Address.label, Address.tld.
  rewrite Lang_Cat_iff. split.
  - intros (l & t & -> & Hl & Ht). apply Lang_AtLeast2_Cls in Ht.
    apply Lang_Plus_iff in Hl as (ss & Hne & Hss & ->).
    assert (Forall (fun y => exists x, (x <> [] /\ Address.chars EmailRe.isLabelChar x)
                                       /\ y = x ++ ["."%char]) ss) as Himg.
    { eapply Forall_impl; [exact Hss |]. intros y Hy. simpl in Hy.
      apply Lang_Cat_iff in Hy as (x & d & -> & Hx & Hd).
      apply Lang_Chr_iff in Hd as ->. apply Lang_Plus_Cls in Hx. eauto. }
    apply Forall_image in Himg as (labels & Hlabels & ->).
    exists labels, t. split; [| auto].
    intros ->. apply Hne. reflexivity.
  - intros (labels & t & Hne & Hlabels & Ht & ->).
    exists (concat (List.map (fun l => l ++ ["."%char]) labels)), t.
    split; [reflexivity |]. split; [| apply Lang_AtLeast2_Cls, Ht].
    apply Lang_Plus_iff. eexists. split; [| split; [| reflexivity]].
    + destruct labels; [done | discriminate].
    + clear Hne. induction Hlabels as [| x rest Hx _ IH]; simpl; constructor;
        [| exact IH].
      apply LCat; [apply Lang_Plus_Cls, Hx | apply Lang_Chr_iff; reflexivity].
Qed.

Lemma re_iff (s : list ascii) : Lang EmailRe.re s <-> Address.address s.
Proof.
  unfold EmailRe.re, Address.address, Address.localPart, Address.domain.
  rewrite Lang_Cat_iff. split.
  - intros (l & t & -> & Hl & Ht).
    apply Lang_Cat_iff in Ht as (k & d & -> & Hk & Hd).
    apply Lang_Chr_iff in Hk as ->.
    rewrite Lang_Alt_iff, dotAtom_iff, quoted_iff in Hl.
    rewrite Lang_Alt_iff, ipLiteral_iff, hostName_iff in Hd.
    exists l, d. auto.
  - intros (l & d & Hl & Hd & ->). exists l, ("@"%char :: d).
    split; [reflexivity |].
    rewrite Lang_Alt_iff, dotAtom_iff, quoted_iff. split; [exact Hl |].
    apply (LCat _ _ ["@"%char]); [apply Lang_Chr_iff; reflexivity |].
    rewrite Lang_Alt_iff, ipLiteral_iff, hostName_iff. exact Hd.
Qed.

Lemma test_re_iff (e : string) :
  Re.test EmailRe.re e = true <-> Address.valid e.
Proof. unfold Re.test, Address.valid. rewrite matches_Lang. apply re_iff. Qed.


End Grammar.

(** ** Strings *)

Section Strings.

Lemma truthy_true (s : string) : Js.truthy s = true <-> s <> "".
Proof.
  unfold Js.truthy. rewrite negb_true_iff. apply String.eqb_neq.
Qed.

Lemma truthy_false (s : string) : Js.truthy s = false <-> s = "".
Proof.
  unfold Js.truthy. rewrite negb_false_iff. apply String.eqb_eq.
Qed.

Lemma orElse_missing (v : option string) (d : string) :
  missing v -> Js.orElse v d = d.
Proof. intros [-> | ->]; reflexivity. Qed.

Lemma orElse_nonempty (v : option string) (d : string) :
  d <> "" -> Js.orElse v d <> "".
Proof.
  intros Hd. unfold Js.orElse. destruct v as [s |]; [| exact Hd].
  destruct (Js.truthy s) eqn:Hs; [| exact Hd]. apply truthy_true, Hs.
Qed.

Lemma orElse_messageText (error : ProviderError.t) :
  Js.orElse (ProviderError.message error) "" = messageText error.
Proof.
  unfold Js.orElse, messageText.
  destruct (ProviderError.message error) as [m |]; [| reflexivity].
  destruct (Js.truthy m) eqn:Hm; [reflexivity |].
  apply truthy_false in Hm. congruence.
Qed.

Lemma prefix_iff (needle s : string) :
  String.prefix needle s = true <-> exists post, s = needle +:+ post.
Proof.
  revert s. induction needle as [| c needle IH]; intros s; simpl.
  - split; [intros _; exists s; reflexivity | destruct s; reflexivity].
  - destruct s as [| c' s]; simpl.
    + split; [discriminate | intros (post & Hp); discriminate].
    + destruct (ascii_dec c c') as [-> | Hc].
      * rewrite IH. split.
        -- intros (post & ->). exists post. reflexivity.
        -- intros (post & Hp). injection Hp as ->. eauto.
      * split; [discriminate |].
        intros (post & Hp). injection Hp as Hcc _. congruence.
Qed.

Lemma includes_iff (s needle : string) :
  Js.includes s needle = true <-> Substring needle s.
Proof.
  unfold Substring. induction s as [| c s IH]; cbn [Js.includes].
  - rewrite orb_false_r, prefix_iff. split.
    + intros (post & Hp). exists "", post. exact Hp.
    + intros (pre & post & Hp). destruct pre; [| discriminate].
      exists post. exact Hp.
  - rewrite orb_true_iff, IH, prefix_iff. split.
    + intros [(post & Hp) | (pre & post & ->)].
      * exists "", post. exact Hp.
      * exists (String c pre), post. reflexivity.
    + intros (pre & post & Hp). destruct pre as [| c' pre]; simpl in Hp.
      * left. eauto.
      * right. injection Hp as _ ->. eauto.
Qed.

Lemma strictEqNum_iff (v : Js.value) (n : Z) :
  Js.strictEqNum v n = true <-> v = Js.Num n.
Proof.
  destruct v as [| m | s]; simpl.
  - split; discriminate.
  - rewrite Z.eqb_eq. split; congruence.
  - split; discriminate.
Qed.

End Strings.

(** ** The gateway: normalisation and failure classification *)

Section Gateway.

(** C1 (as the code has it).  For every raw provider record, normalisation
    fills every missing property, absent or empty, with a default:
    the text Unknown for the first name, the job title, the company name
    and the location; the sentinel NULL for the email and the phone; the
    empty string for the last name, the linkedin and the website; and
    the confidence Low when the record specifies no confidence. *)
Theorem normalize_defaults (uuid : string) (l : RawLead.t) :
  let lead := normalize uuid l in
  (missing (RawLead.firstName l) -> Lead.firstName lead = "Unknown") /\
  (missing (RawLead.lastName l) -> Lead.lastName lead = "") /\
  (missing (RawLead.email l) -> Lead.email lead = "NULL") /\
  (missing (RawLead.phone l) -> Lead.phone lead = "NULL") /\
  (missing (RawLead.jobTitle l) -> Lead.jobTitle lead = "Unknown") /\
  (missing (RawLead.companyName l) -> Lead.companyName lead = "Unknown") /\
  (missing (RawLead.location l) -> Lead.location lead = "Unknown") /\
  (missing (RawLead.linkedin l) -> Lead.linkedin lead = "") /\
  (missing (RawLead.website l) -> Lead.website lead = "") /\
  (missing (RawLead.emailConfidence l) -> Lead.emailConfidence lead = Low).
Proof.
  simpl. repeat split; intros H; rewrite (orElse_missing _ _ H); reflexivity.
Qed.

Lemma normalize_defaults_witness :
  let lead := normalize "lead-0" Sample.emptyRecord in
  Lead.firstName lead = "Unknown" /\ Lead.lastName lead = "" /\
  Lead.email lead = "NULL" /\ Lead.emailConfidence lead = Low.
Proof.
  pose proof (normalize_defaults "lead-0" Sample.emptyRecord) as H.
  cbv zeta in *.
  destruct H as (H1 & H2 & H3 & _ & _ & _ & _ & _ & _ & H10).
  split; [apply H1 | split; [apply H2 | split; [apply H3 | apply H10]]];
    left; reflexivity.
Defined.

(** C1 as stated fails: a record without a last name and without a
    confidence is given the empty last name and the confidence Low, not
    the text Unknown and the confidence Estimated. *)
Lemma normalize_defaults_counterexample :
  missing (RawLead.lastName Sample.emptyRecord) /\
  missing (RawLead.emailConfidence Sample.emptyRecord) /\
  Lead.lastName (normalize "lead-0" Sample.emptyRecord) <> "Unknown" /\
  Lead.emailConfidence (normalize "lead-0" Sample.emptyRecord) <> Estimated.
Proof.
  repeat split; try (left; reflexivity); vm_compute; discriminate.
Qed.

Lemma isQuotaError_iff (error : ProviderError.t) :
  isQuotaError error = true <-> QuotaSignal error.
Proof.
  unfold isQuotaError, QuotaSignal.
  rewrite orElse_messageText, !orb_true_iff, !includes_iff, strictEqNum_iff.
  unfold Js.or.
  destruct (Js.truthyValue (ProviderError.status error)) eqn:Ht.
  - intuition congruence.
  - assert (ProviderError.status error <> Js.Num 429) as Hne.
    { intros Hs. rewrite Hs in Ht. discriminate. }
    intuition congruence.
Qed.

(** C2 (as the code has it).  When the gateway call fails, [findLeads]
    throws the distinguished error QUOTA_EXCEEDED, and not the provider's
    error, if and only if the error's message contains RESOURCE_EXHAUSTED,
    429 or quota in lower case, or its status (its code when the status
    is falsy) is the number 429, or its property dump contains
    RESOURCE_EXHAUSTED or the token of the search grounding quota; every
    other failure is rethrown as the original error. *)
Theorem quota_classification (apiKey : option string) (uuid : nat -> string)
    (error : ProviderError.t) :
  Js.present apiKey = true ->
  (findLeads apiKey uuid (Failed error) = inl (NewError "QUOTA_EXCEEDED")
   <-> QuotaSignal error) /\
  (~ QuotaSignal error ->
   findLeads apiKey uuid (Failed error) = inl (Rethrown error)).
Proof.
  intros Hkey. unfold findLeads, classify. rewrite Hkey. simpl.
  rewrite <- isQuotaError_iff.
  destruct (isQuotaError error); split.
  - split; reflexivity.
  - intros H. exfalso. apply H. reflexivity.
  - split; discriminate.
  - reflexivity.
Qed.

Lemma quota_classification_witness :
  findLeads (Some "key") Sample.uuid (Failed Sample.exhausted)
  = inl (NewError "QUOTA_EXCEEDED").
Proof.
  apply (quota_classification (Some "key") Sample.uuid Sample.exhausted);
    [reflexivity |].
  right. left. exists "", " RESOURCE_EXHAUSTED". reflexivity.
Defined.

(** C2 as stated fails: a message that names the quota with a capital
    letter contains the token when case is ignored, and the error is
    rethrown as it is. *)
Lemma quota_classification_counterexample :
  Js.includes
    (Js.toLowerCase (messageText Sample.capitalQuota)) "quota" = true /\
  findLeads (Some "key") Sample.uuid (Failed Sample.capitalQuota)
  = inl (Rethrown Sample.capitalQuota).
Proof. split; vm_compute; reflexivity. Qed.

End Gateway.

(** ** The Email Validator *)

Section Validator.

Local Open Scope list_scope.






















End Validator.

(** ** The post-processing passes *)

Section Passes.

Lemma lookup_map {A B : Type} (f : A -> B) (l : list A) (i : nat) :
  List.map f l !! i = f <$> l !! i.
Proof.
  revert i. induction l as [| x l IH]; intros [| i]; simpl; auto.
Qed.

Lemma validate_downgrade (lead : Lead.t) :
  Lead.email lead <> "NULL" -> isValidEmail (Lead.email lead) = false ->
  downgradeOf lead (validate lead).
Proof.
  intros Hn Hv. unfold validate. apply String.eqb_neq in Hn.
  rewrite Hn, Hv. simpl. unfold downgradeOf. simpl. tauto.
Qed.

Lemma validate_unchanged (lead : Lead.t) :
  Lead.email lead = "NULL" \/ isValidEmail (Lead.email lead) = true ->
  validate lead = lead.
Proof.
  intros [Hn | Hv]; unfold validate.
  - apply String.eqb_eq in Hn. rewrite Hn. reflexivity.
  - rewrite Hv, andb_false_r. reflexivity.
Qed.

(** C4.  In the validation pass, every lead whose email is not the
    sentinel and fails the Email Validator is rewritten to the email NULL
    with the confidence Low, whatever confidence it came with, its other
    fields kept; a lead whose email is the sentinel or passes the validator
    is left as it is.  The pass keeps the number and the order of the
    leads. *)
Theorem validation_pass (newLeads : list Lead.t) (i : nat) (lead : Lead.t) :
  newLeads !! i = Some lead ->
  length (validatedLeads newLeads) = length newLeads /\
  (Lead.email lead <> "NULL" -> isValidEmail (Lead.email lead) = false ->
   exists lead', validatedLeads newLeads !! i = Some lead' /\
                 downgradeOf lead lead') /\
  (Lead.email lead = "NULL" \/ isValidEmail (Lead.email lead) = true ->
   validatedLeads newLeads !! i = Some lead).
Proof.
  intros Hi. unfold validatedLeads. rewrite lookup_map, Hi. simpl.
  split; [apply List.length_map |]. split.
  - intros Hn Hv. exists (validate lead).
    split; [reflexivity | apply validate_downgrade; assumption].
  - intros H. rewrite validate_unchanged; [reflexivity | exact H].
Qed.

Lemma validation_pass_witness :
  isValidEmail "bad@@@x" = false /\
  exists lead', validatedLeads [Sample.badLead] !! 0%nat = Some lead' /\
                downgradeOf Sample.badLead lead'.
Proof.
  split; [vm_compute; reflexivity |].
  apply (validation_pass [Sample.badLead] 0 Sample.badLead eq_refl);
    [discriminate | vm_compute; reflexivity].
Defined.

Lemma normalize_email_nonempty (uuid : string) (l : RawLead.t) :
  Lead.email (normalize uuid l) <> "".
Proof. simpl. apply orElse_nonempty. discriminate. Qed.

Lemma validate_email_nonempty (lead : Lead.t) :
  Lead.email lead <> "" -> Lead.email (validate lead) <> "".
Proof.
  intros H. unfold validate.
  destruct (negb (Lead.email lead =? "NULL")
            && negb (isValidEmail (Lead.email lead))); [discriminate | exact H].
Qed.

Lemma pipeline_email_nonempty (uuid : nat -> string)
    (rawLeads : list RawLead.t) (lead : Lead.t) :
  lead ∈ validatedLeads (normalizeAll uuid rawLeads) -> Lead.email lead <> "".
Proof.
  intros H. apply list_elem_of_lookup in H as (i & Hi).
  unfold validatedLeads, normalizeAll in Hi.
  rewrite lookup_map, list_lookup_imap in Hi.
  destruct (rawLeads !! i) as [r |]; [| discriminate].
  simpl in Hi. injection Hi as <-.
  apply validate_email_nonempty, normalize_email_nonempty.
Qed.

Lemma identifier_anonymous (lead : Lead.t) :
  Lead.email lead <> "" -> (identifier lead = "" <-> anonymous lead).
Proof.
  intros He. unfold identifier, anonymous.
  destruct (Lead.email lead =? "NULL") eqn:Hn; simpl.
  - apply String.eqb_eq in Hn. tauto.
  - apply String.eqb_neq in Hn. tauto.
Qed.

Lemma isUnique_iff (existingIds : gset string) (lead : Lead.t) :
  Lead.email lead <> "" ->
  (isUnique existingIds lead = true <-> ~ known existingIds lead).
Proof.
  intros He. pose proof (identifier_anonymous lead He) as Ha.
  unfold isUnique, known.
  destruct (Js.truthy (identifier lead)) eqn:Ht; simpl.
  - apply truthy_true in Ht.
    rewrite negb_true_iff, bool_decide_eq_false. tauto.
  - apply truthy_false in Ht. tauto.
Qed.

Lemma filter_agree {A : Type} (f : A -> bool) (P : A -> Prop)
    `{!forall x, Decision (P x)} (l : list A) :
  (forall x, x ∈ l -> (f x = true <-> P x)) -> List.filter f l = filter P l.
Proof.
  induction l as [| x l IH]; intros Hall; [reflexivity |].
  simpl. rewrite filter_cons.
  assert (f x = true <-> P x) as Hx by (apply Hall; left).
  rewrite IH by (intros y Hy; apply Hall; right; exact Hy).
  destruct (f x), (decide (P x)); try reflexivity; exfalso; intuition congruence.
Qed.

Lemma existingIds_iff (collection : list Lead.t) (i : string) :
  i ∈ existingIdsOf collection <->
  exists old, old ∈ collection /\
    ((Lead.email old = "NULL" /\ i = Lead.linkedin old) \/
     (Lead.email old <> "NULL" /\ i = Lead.email old)).
Proof.
  unfold existingIdsOf. rewrite elem_of_list_to_set, list_elem_of_In, in_map_iff.
  split.
  - intros (old & Hi & Hold). exists old. rewrite list_elem_of_In.
    split; [exact Hold |]. unfold existingId in Hi.
    destruct (Lead.email old =? "NULL") eqn:Hn.
    + apply String.eqb_eq in Hn. auto.
    + apply String.eqb_neq in Hn. auto.
  - intros (old & Hold & Hi). exists old. rewrite <- list_elem_of_In.
    split; [| exact Hold]. unfold existingId.
    destruct Hi as [[Hn ->] | [Hn ->]].
    + apply String.eqb_eq in Hn. rewrite Hn. reflexivity.
    + apply String.eqb_neq in Hn. rewrite Hn. reflexivity.
Qed.

(** C5.  Deduplication removes from the normalised and validated leads
    exactly the known ones: those that have an identifier, the email when
    it is not the sentinel and the linkedin otherwise, which is in the set
    of the identifiers of the current collection.  A lead with the sentinel
    email and an empty linkedin has no identifier and is always kept. *)
Theorem dedup_drops_known (collection : list Lead.t) (uuid : nat -> string)
    (rawLeads : list RawLead.t) :
  let existingIds := existingIdsOf collection in
  let validated := validatedLeads (normalizeAll uuid rawLeads) in
  uniqueNewLeads existingIds validated
  = filter (fun lead => ~ known existingIds lead) validated /\
  (forall i, i ∈ existingIds <->
     exists old, old ∈ collection /\
       ((Lead.email old = "NULL" /\ i = Lead.linkedin old) \/
        (Lead.email old <> "NULL" /\ i = Lead.email old))) /\
  (forall lead, lead ∈ validated -> anonymous lead ->
     lead ∈ uniqueNewLeads existingIds validated).
Proof.
  intros existingIds validated.
  assert (uniqueNewLeads existingIds validated
          = filter (fun lead => ~ known existingIds lead) validated) as Heq.
  { apply filter_agree. intros lead Hl. apply isUnique_iff.
    exact (pipeline_email_nonempty _ _ _ Hl). }
  split; [exact Heq |]. split; [apply existingIds_iff |].
  intros lead Hl Ha. rewrite Heq. apply list_elem_of_filter.
  split; [| exact Hl]. unfold known. tauto.
Qed.

Lemma unique_keeps_absent (existingIds : gset string) (i : string)
    (batch : list Lead.t) :
  i ∉ existingIds ->
  filter (fun l => identifier l = i) (uniqueNewLeads existingIds batch)
  = filter (fun l => identifier l = i) batch.
Proof.
  intros Hi. unfold uniqueNewLeads.
  induction batch as [| l batch IH]; [reflexivity |].
  simpl. rewrite (filter_cons _ l batch).
  destruct (decide (identifier l = i)) as [Hl | Hl].
  - assert (isUnique existingIds l = true) as ->.
    { unfold isUnique. rewrite Hl.
      destruct (negb (Js.truthy i)); [reflexivity |].
      rewrite negb_true_iff, bool_decide_eq_false. exact Hi. }
    rewrite filter_cons, decide_True by exact Hl. rewrite IH. reflexivity.
  - destruct (isUnique existingIds l); [| exact IH].
    rewrite filter_cons, decide_False by exact Hl. exact IH.
Qed.

End Passes.

(** ** The controller *)

Section Controller.

Local Ltac settle_fields :=
  simpl; repeat split; eauto; try discriminate;
  try (intros; exfalso; auto; fail).

(** What a handler leaves for the render to complete. *)
Lemma handle_Inv (ev : Event) (a : App) :
  Inv a ->
  (leadsChanged (handle ev a) = false ->
   ScoutStatus.totalFound (status (handle ev a)) = length (leads (handle ev a))) /\
  (ScoutStatus.isLooping (status (handle ev a)) = true ->
   is_Some (currentCriteria (handle ev a))) /\
  (quotaHit (handle ev a) = true ->
   ScoutStatus.isLooping (status (handle ev a)) = false).
Proof.
  destruct a as [ls [sg lp tf lt lg] cc qh st al tm pd lc].
  unfold Inv. simpl. intros (H1 & -> & H3 & H4).
  destruct ev as [criteria | | | i apiKey uuid g now | | confirmed | |];
    unfold handle.
  - unfold handleSearch, executeSearch. simpl. destruct qh; settle_fields.
  - unfold findMore, executeSearch. simpl.
    destruct cc; [| settle_fields]. destruct sg, qh; settle_fields.
  - unfold tick, executeSearch. simpl.
    destruct cc as [c |]; [| settle_fields].
    destruct lp, sg, qh; try solve [settle_fields]. simpl.
    destruct (length ls <? SearchCriteria.resultsAmount c)%nat; settle_fields.
  - unfold settle. simpl. destruct (pd !! i) as [ex |]; [| settle_fields].
    destruct (findLeads apiKey uuid g) as [error | newLeads]; unfold resume.
    + destruct (match thrownMessage error with
                | Some m => m =? "QUOTA_EXCEEDED"
                | None => false
                end); settle_fields.
    + destruct (0 <? length (uniqueNewLeads ex (validatedLeads newLeads)))%nat;
        settle_fields.
  - unfold toggleLoop. simpl. destruct cc as [c |], lp, qh; settle_fields.
  - unfold clearData. destruct confirmed; settle_fields.
  - unfold copyEmails. settle_fields.
  - unfold timerFires. simpl. destruct tm; settle_fields.
Qed.

Lemma render_fields (a : App) :
  leads (render a) = leads a /\
  currentCriteria (render a) = currentCriteria a /\
  quotaHit (render a) = quotaHit a /\
  ScoutStatus.isLooping (status (render a)) = ScoutStatus.isLooping (status a) /\
  leadsChanged (render a) = false /\
  (leadsChanged a = true ->
   ScoutStatus.totalFound (status (render a)) = length (leads a) /\
   localStorage (render a) = Some (Serialized (leads a))) /\
  (leadsChanged a = false -> render a = a).
Proof.
  unfold render. destruct (leadsChanged a) eqn:Hc; simpl;
    repeat split; auto; discriminate.
Qed.

Lemma step_Inv (a : App) (ev : Event) : Inv a -> Inv (step a ev).
Proof.
  intros H. apply (handle_Inv ev) in H as (H1 & H3 & H4).
  unfold step, Inv.
  destruct (render_fields (handle ev a)) as (Hl & Hc & Hq & Hp & Hd & Ht & Hn).
  rewrite Hl, Hc, Hq, Hp. repeat split; try assumption.
  destruct (leadsChanged (handle ev a)) eqn:Hch.
  - apply Ht. reflexivity.
  - rewrite (Hn eq_refl). apply H1. reflexivity.
Qed.

Lemma mount_Inv (stored : option Stored) : Inv (mount stored).
Proof.
  unfold mount, Inv. destruct stored as [[| saved] |]; simpl;
    repeat split; auto; discriminate.
Qed.

Lemma reachable_Inv (a : App) : reachable a -> Inv a.
Proof.
  induction 1 as [stored | a ev _ IH]; [apply mount_Inv | apply step_Inv, IH].
Qed.

Lemma reachable_run (a : App) (evs : list Event) :
  reachable a -> reachable (run a evs).
Proof.
  revert a. induction evs as [| ev evs IH]; intros a Ha; simpl; [exact Ha |].
  apply IH. constructor. exact Ha.
Qed.

(** No handler clears the quota flag. *)
Lemma handle_quotaHit (ev : Event) (a : App) :
  quotaHit a = true -> quotaHit (handle ev a) = true.
Proof.
  destruct a as [ls [sg lp tf lt lg] cc qh st al tm pd lc]. simpl.
  intros ->.
  destruct ev as [criteria | | | i apiKey uuid g now | | confirmed | |];
    unfold handle.
  - reflexivity.
  - unfold findMore. simpl. destruct cc; [| reflexivity].
    destruct sg; reflexivity.
  - unfold tick. simpl. destruct cc; [| reflexivity].
    destruct lp, sg; reflexivity.
  - unfold settle. simpl. destruct (pd !! i) as [ex |]; [| reflexivity].
    destruct (findLeads apiKey uuid g) as [error | newLeads]; unfold resume.
    + destruct (match thrownMessage error with
                | Some m => m =? "QUOTA_EXCEEDED"
                | None => false
                end); reflexivity.
    + destruct (0 <? length (uniqueNewLeads ex (validatedLeads newLeads)))%nat;
        reflexivity.
  - unfold toggleLoop. simpl. destruct cc, lp; reflexivity.
  - destruct confirmed; reflexivity.
  - reflexivity.
  - unfold timerFires. simpl. destruct tm; reflexivity.
Qed.

Lemma step_quotaHit (a : App) (ev : Event) :
  quotaHit a = true -> quotaHit (step a ev) = true.
Proof.
  intros H. unfold step.
  destruct (render_fields (handle ev a)) as (_ & _ & -> & _).
  apply handle_quotaHit, H.
Qed.

(** Handlers never write the count themselves. *)
Lemma handle_totalFound (ev : Event) (a : App) :
  ScoutStatus.totalFound (status (handle ev a))
  = ScoutStatus.totalFound (status a).
Proof.
  destruct a as [ls [sg lp tf lt lg] cc qh st al tm pd lc].
  destruct ev as [criteria | | | i apiKey uuid g now | | confirmed | |];
    unfold handle.
  - unfold handleSearch, executeSearch. simpl. destruct qh; reflexivity.
  - unfold findMore, executeSearch. simpl. destruct cc; [| reflexivity].
    destruct sg, qh; reflexivity.
  - unfold tick, executeSearch. simpl. destruct cc as [c |]; [| reflexivity].
    destruct lp, sg, qh; try reflexivity. simpl.
    destruct (length ls <? SearchCriteria.resultsAmount c)%nat; reflexivity.
  - unfold settle. simpl. destruct (pd !! i) as [ex |]; [| reflexivity].
    destruct (findLeads apiKey uuid g) as [error | newLeads]; unfold resume.
    + destruct (match thrownMessage error with
                | Some m => m =? "QUOTA_EXCEEDED"
                | None => false
                end); reflexivity.
    + destruct (0 <? length (uniqueNewLeads ex (validatedLeads newLeads)))%nat;
        reflexivity.
  - unfold toggleLoop. simpl. destruct cc, lp, qh; reflexivity.
  - destruct confirmed; reflexivity.
  - reflexivity.
  - unfold timerFires. simpl. destruct tm; reflexivity.
Qed.

Lemma findLeads_quota (apiKey : option string) (uuid : nat -> string)
    (error : ProviderError.t) :
  Js.present apiKey = true -> QuotaSignal error ->
  findLeads apiKey uuid (Failed error) = inl (NewError "QUOTA_EXCEEDED").
Proof.
  intros Hkey Hq. apply isQuotaError_iff in Hq.
  unfold findLeads, classify. rewrite Hkey, Hq. reflexivity.
Qed.

Lemma halted_run (evs : list Event) :
  forall a, reachable a -> quotaHit a = true ->
  quotaHit (run a evs) = true /\
  ScoutStatus.isLooping (status (run a evs)) = false.
Proof.
  induction evs as [| ev evs IH]; intros a Hr Hq; simpl.
  - split; [exact Hq |]. apply (reachable_Inv a Hr), Hq.
  - apply IH; [constructor; exact Hr | apply step_quotaHit, Hq].
Qed.

(** C6.  In every state the component reaches: when an awaited search
    fails with a sign of an exhausted quota, the transition sets the quota
    flag and clears isLooping; and once the quota flag is set, it stays set
    and isLooping stays false whatever happens next.  In particular
    toggleLoop leaves the status as it is, and a new search is refused: no
    call to the gateway is started. *)
Theorem quota_halt_is_terminal (a : App) :
  reachable a ->
  (forall i existingIds apiKey uuid error now,
     pending a !! i = Some existingIds ->
     Js.present apiKey = true -> QuotaSignal error ->
     let a' := step a (Settle i apiKey uuid (Failed error) now) in
     quotaHit a' = true /\ ScoutStatus.isLooping (status a') = false) /\
  (quotaHit a = true ->
   forall evs,
     quotaHit (run a evs) = true /\
     ScoutStatus.isLooping (status (run a evs)) = false) /\
  (quotaHit a = true ->
   forall criteria,
     status (step a ToggleLoop) = status a /\
     quotaHit (step a ToggleLoop) = true /\
     status (step a (Submit criteria)) = status a /\
     quotaHit (step a (Submit criteria)) = true /\
     pending (step a (Submit criteria)) = pending a).
Proof.
  intros Hr. pose proof (reachable_Inv a Hr) as (H1 & H2 & H3 & H4).
  split; [| split].
  - intros i ex apiKey uuid error now Hi Hkey Hq a'. subst a'.
    unfold step.
    destruct (render_fields (handle (Settle i apiKey uuid (Failed error) now) a))
      as (_ & _ & -> & -> & _).
    unfold handle, settle. rewrite Hi, (findLeads_quota _ _ _ Hkey Hq).
    split; reflexivity.
  - intros Hq evs. apply halted_run; assumption.
  - intros Hq criteria. unfold step, handle, toggleLoop, handleSearch, executeSearch.
    rewrite (H4 Hq). simpl. rewrite Hq.
    destruct (negb (bool_decide (is_Some (currentCriteria a))) && true);
      unfold render; simpl; rewrite H2; simpl; auto.
Qed.

Lemma quota_halt_is_terminal_witness :
  quotaHit Sample.haltedSession = true /\
  ScoutStatus.isLooping
    (status (run Sample.haltedSession [ToggleLoop; Submit Sample.criteria; Tick]))
  = false.
Proof.
  assert (reachable Sample.haltedSession) as Hr
    by (unfold Sample.haltedSession; do 2 constructor; apply reachable_mount).
  split; [vm_compute; reflexivity |].
  apply (quota_halt_is_terminal Sample.haltedSession Hr).
  vm_compute; reflexivity.
Defined.

(** C7.  In every state the component reaches, toggleLoop is refused when
    there is no current criteria yet or the controller is halted by the
    quota flag: the state is left as it is, but for the alert shown to the
    user.  In every other reachable state it toggles isLooping and changes
    nothing else. *)
Theorem toggleLoop_refused_or_toggles (a : App) :
  reachable a ->
  (currentCriteria a = None \/ quotaHit a = true ->
   exists msg, step a ToggleLoop = alert msg a) /\
  (is_Some (currentCriteria a) -> quotaHit a = false ->
   step a ToggleLoop
   = setStatus
       (Status.withLooping (negb (ScoutStatus.isLooping (status a)))) a).
Proof.
  intros Hr. pose proof (reachable_Inv a Hr) as (H1 & H2 & H3 & H4).
  unfold step, handle, toggleLoop, render. split.
  - intros [Hc | Hq].
    + destruct (ScoutStatus.isLooping (status a)) eqn:Hl.
      { destruct (H3 eq_refl) as [c Hc']. congruence. }
      rewrite Hc. simpl. rewrite H2. eauto.
    + rewrite (H4 Hq), Hq.
      destruct (negb (bool_decide (is_Some (currentCriteria a))) && negb false);
        simpl; rewrite H2; eauto.
  - intros [c Hc] Hq. rewrite Hc, Hq. simpl. rewrite H2. reflexivity.
Qed.

Lemma toggleLoop_refused_or_toggles_witness :
  (exists msg, step (mount None) ToggleLoop = alert msg (mount None)) /\
  ScoutStatus.isLooping
    (status (step (step (mount None) (Submit Sample.criteria)) ToggleLoop))
  = true.
Proof.
  split.
  - apply (toggleLoop_refused_or_toggles (mount None) (reachable_mount None)).
    left. reflexivity.
  - rewrite (proj2 (toggleLoop_refused_or_toggles
                      (step (mount None) (Submit Sample.criteria))
                      (reachable_step _ _ (reachable_mount None))));
      [reflexivity | eexists; reflexivity | reflexivity].
Defined.

(** C8.  After every transition of the controller, from the mount on,
    status.totalFound equals the length of the lead collection: so it is
    after a search that appends leads, after one that appends none and
    after clear-all.  No handler writes totalFound; the effect on the
    collection recomputes it as the length of the collection. *)
Theorem totalFound_is_length :
  (forall stored evs,
     ScoutStatus.totalFound (status (run (mount stored) evs))
     = length (leads (run (mount stored) evs))) /\
  (forall ev a,
     ScoutStatus.totalFound (status (handle ev a))
     = ScoutStatus.totalFound (status a)) /\
  (forall a,
     ScoutStatus.totalFound (status (leadsEffect a)) = length (leads a)).
Proof.
  split; [| split].
  - intros stored evs.
    apply (reachable_Inv _ (reachable_run _ evs (reachable_mount stored))).
  - apply handle_totalFound.
  - reflexivity.
Qed.

(** C9 (what the code does).  When the user confirms the clear-all action
    the handler empties the collection and removes the key from the store;
    the render that follows runs the effect on the collection, which
    writes the serialisation of the empty collection back under the key.
    After the transition the collection is empty and the key is present. *)
Theorem clearData_key_rewritten (a : App) :
  localStorage (handle (ClearData true) a) = None /\
  leads (step a (ClearData true)) = [] /\
  localStorage (step a (ClearData true)) = Some (Serialized []).
Proof. repeat split. Qed.

Lemma resume_success_leads (existingIds : gset string)
    (newLeads : list Lead.t) (now : string) (a : App) :
  leads (resume existingIds (inr newLeads) now a)
  = (uniqueNewLeads existingIds (validatedLeads newLeads) ++ leads a)%list.
Proof.
  unfold resume.
  destruct (uniqueNewLeads existingIds (validatedLeads newLeads)) as [| l u];
    reflexivity.
Qed.

(** C10.  A search cycle compares each new lead with the identifiers
    captured from the collection when the cycle started, and with nothing
    else: every lead of the batch whose identifier is not among them is
    put in front of the collection, also when several leads of the batch
    share that identifier. *)
Theorem batch_duplicates_all_appended (a : App)
    (criteria : SearchCriteria.t) (apiKey : option string)
    (uuid : nat -> string) (rawLeads : list RawLead.t) (now i : string) :
  quotaHit a = false -> Js.present apiKey = true ->
  i ∉ existingIdsOf (leads a) ->
  let batch := validatedLeads (normalizeAll uuid rawLeads) in
  let a1 := step a (Submit criteria) in
  let a2 := step a1 (Settle (length (pending a)) apiKey uuid
                            (Responded rawLeads) now) in
  filter (fun l => identifier l = i) (leads a2)
  = (filter (fun l => identifier l = i) batch
     ++ filter (fun l => identifier l = i) (leads a))%list.
Proof.
  intros Hq Hkey Hi batch a1 a2. subst a2.
  assert (leads a1 = leads a /\
          pending a1 !! length (pending a) = Some (existingIdsOf (leads a)))
    as [Hl Hp].
  { subst a1. unfold step.
    destruct (render_fields (handle (Submit criteria) a)) as (-> & _).
    unfold handle, handleSearch, executeSearch. simpl. rewrite Hq.
    unfold render. simpl.
    destruct (leadsChanged a); simpl; (split; [reflexivity |]);
      apply list_lookup_middle; reflexivity. }
  unfold step at 1.
  destruct (render_fields
              (handle (Settle (length (pending a)) apiKey uuid
                              (Responded rawLeads) now) a1)) as (-> & _).
  unfold handle, settle. rewrite Hp. unfold findLeads. rewrite Hkey.
  cbn [negb]. rewrite resume_success_leads.
  change (leads (setPending _ a1)) with (leads a1). rewrite Hl, filter_app.
  fold batch. rewrite unique_keeps_absent by exact Hi. reflexivity.
Qed.

Lemma batch_duplicates_all_appended_witness :
  length
    (filter (fun l => identifier l = "ada@engines.co")
       (leads (step (step (mount None) (Submit Sample.criteria))
                    (Settle 0 (Some "key") Sample.uuid
                            (Responded Sample.twins) "10:00:00"))))
  = 2%nat.
Proof.
  assert ("ada@engines.co" ∉ existingIdsOf (leads (mount None))) as Hi
    by (cbn; set_solver).
  pose proof (batch_duplicates_all_appended (mount None) Sample.criteria
                (Some "key") Sample.uuid Sample.twins "10:00:00"
                "ada@engines.co" eq_refl eq_refl Hi) as H.
  cbv zeta in H. change (length (pending (mount None))) with 0%nat in H.
  rewrite H. vm_compute. reflexivity.
Defined.

End Controller.

(** ** More on the gateway *)

Section GatewayMore.

Lemma toLowerCase_app (a b : string) :
  Js.toLowerCase (a +:+ b) = Js.toLowerCase a +:+ Js.toLowerCase b.
Proof. induction a as [| c a IH]; simpl; [reflexivity | rewrite IH; reflexivity]. Qed.

Lemma Substring_lower (pre tok post : string) :
  Substring (Js.toLowerCase tok) (Js.toLowerCase (pre +:+ tok +:+ post)).
Proof.
  exists (Js.toLowerCase pre), (Js.toLowerCase post).
  rewrite !toLowerCase_app. reflexivity.
Qed.

(** X1.  The confidence of a text is decided by the tokens verif, high and low,
    looked for in that order in the text put in lower case: the first one
    found wins, and the confidence is Estimated exactly when none occurs.
    So a text that has verif in any mix of cases, anywhere, is Verified,
    whatever else it says. *)
Theorem mapConfidence_tokens (conf : string) :
  let c := Js.toLowerCase conf in
  (mapConfidence conf = Verified <-> Substring "verif" c) /\
  (mapConfidence conf = High <->
   ~ Substring "verif" c /\ Substring "high" c) /\
  (mapConfidence conf = Low <->
   ~ Substring "verif" c /\ ~ Substring "high" c /\ Substring "low" c) /\
  (mapConfidence conf = Estimated <->
   ~ Substring "verif" c /\ ~ Substring "high" c /\ ~ Substring "low" c) /\
  (forall pre tok post,
     conf = pre +:+ tok +:+ post -> Js.toLowerCase tok = "verif" ->
     mapConfidence conf = Verified).
Proof.
  intros c.
  assert (mapConfidence conf = Verified <-> Substring "verif" c) as HV.
  { unfold mapConfidence. fold c. rewrite <- includes_iff.
    destruct (Js.includes c "verif"); [tauto |].
    destruct (Js.includes c "high"); [split; discriminate |].
    destruct (Js.includes c "low"); split; discriminate. }
  split; [exact HV |].
  unfold mapConfidence in *. fold c in HV |- *. rewrite <- !includes_iff.
  destruct (Js.includes c "verif") eqn:H1.
  - repeat split; try discriminate; try tauto.
  - destruct (Js.includes c "high") eqn:H2;
      [| destruct (Js.includes c "low") eqn:H3];
      (repeat split; try discriminate; try tauto; try (intros; congruence));
      intros pre tok post -> Htok; exfalso;
      pose proof (Substring_lower pre tok post) as Hs;
      rewrite Htok in Hs; apply includes_iff in Hs; subst c; congruence.
Qed.

Lemma mapConfidence_tokens_witness :
  mapConfidence "Unverified guess, LOW" = Verified.
Proof.
  apply (mapConfidence_tokens "Unverified guess, LOW") with
    (pre := "Un") (tok := "verif") (post := "ied guess, LOW"); reflexivity.
Defined.

Lemma add_elem (s : list string) (x y : string) :
  y ∈ OrderedSet.add s x <-> y ∈ s \/ y = x.
Proof.
  unfold OrderedSet.add. case_bool_decide as Hx.
  - split; [auto |]. intros [H | ->]; assumption.
  - rewrite elem_of_app, list_elem_of_singleton. reflexivity.
Qed.

Lemma add_NoDup (s : list string) (x : string) :
  NoDup s -> NoDup (OrderedSet.add s x).
Proof.
  intros Hs. unfold OrderedSet.add. case_bool_decide as Hx; [exact Hs |].
  apply NoDup_app. split; [exact Hs |]. split; [| apply NoDup_singleton].
  intros y Hy Hyx. apply list_elem_of_singleton in Hyx as ->. auto.
Qed.

Lemma from_fold (l acc : list string) :
  NoDup acc ->
  NoDup (fold_left OrderedSet.add l acc) /\
  (forall y, y ∈ fold_left OrderedSet.add l acc <-> y ∈ acc \/ y ∈ l).
Proof.
  revert acc. induction l as [| x l IH]; intros acc Hacc; simpl.
  - split; [exact Hacc |]. intros y. rewrite elem_of_nil. tauto.
  - destruct (IH _ (add_NoDup acc x Hacc)) as [Hn He].
    split; [exact Hn |]. intros y.
    rewrite He, add_elem, elem_of_cons. tauto.
Qed.

Lemma existingIdsInOrder_elem (leads : list Lead.t) (i : string) :
  i ∈ existingIdsInOrder leads <-> i ∈ existingIdsOf leads.
Proof.
  unfold existingIdsInOrder, existingIdsOf, OrderedSet.from.
  destruct (from_fold (List.map existingId leads) [] (NoDup_nil_2)) as [_ He].
  rewrite He, elem_of_list_to_set, elem_of_nil. tauto.
Qed.

(** X2.  The exclusion list of the prompt names at most 50 identifiers, none
    twice, each the identifier of a lead of the collection; when the
    collection has at most 50 distinct identifiers it names them all. *)
Theorem exclusion_list_bounded (leads : list Lead.t) :
  let ex := excluded (existingIdsInOrder leads) in
  (length ex <= 50)%nat /\ NoDup ex /\
  (forall i, i ∈ ex -> i ∈ existingIdsOf leads) /\
  (size (existingIdsOf leads) <= 50 ->
   forall i, i ∈ existingIdsOf leads -> i ∈ ex).
Proof.
  intros ex. subst ex. unfold excluded.
  assert (NoDup (existingIdsInOrder leads)) as Hnd.
  { unfold existingIdsInOrder, OrderedSet.from.
    apply (from_fold _ [] NoDup_nil_2). }
  split; [rewrite length_take; lia |].
  split; [eapply sublist_NoDup; [exact Hnd | apply sublist_take] |].
  split.
  - intros i Hi. apply existingIdsInOrder_elem.
    apply elem_of_take in Hi as (k & Hk & _).
    apply list_elem_of_lookup. eauto.
  - intros Hsize i Hi.
    assert (length (existingIdsInOrder leads) = size (existingIdsOf leads)) as Hlen.
    { rewrite <- (size_list_to_set (C := gset string)) by exact Hnd.
      f_equal. apply set_eq. intros y.
      rewrite elem_of_list_to_set. apply existingIdsInOrder_elem. }
    rewrite take_ge by lia. apply existingIdsInOrder_elem, Hi.
Qed.

Lemma exclusion_list_bounded_witness :
  "ada@engines.co" ∈ excluded (existingIdsInOrder [Scenario.wellFormedLead]).
Proof.
  apply (exclusion_list_bounded [Scenario.wellFormedLead]).
  - vm_compute. lia.
  - apply existingIdsInOrder_elem. vm_compute. left.
Defined.

End GatewayMore.

(** ** More on the post-processing passes *)

Section PassesMore.

Lemma existingId_identifier (l : Lead.t) : existingId l = identifier l.
Proof.
  unfold existingId, identifier. destruct (Lead.email l =? "NULL"); reflexivity.
Qed.

Lemma validate_wellFormed (l : Lead.t) : wellFormed (validate l).
Proof.
  unfold wellFormed, validate.
  destruct (Lead.email l =? "NULL") eqn:Hn; simpl.
  - left. apply String.eqb_eq, Hn.
  - destruct (isValidEmail (Lead.email l)) eqn:Hv; simpl; [right; exact Hv |].
    left. reflexivity.
Qed.

Lemma validate_fixes_wellFormed (l : Lead.t) : wellFormed l -> validate l = l.
Proof. apply validate_unchanged. Qed.

Lemma validate_idem (l : Lead.t) : validate (validate l) = validate l.
Proof. apply validate_fixes_wellFormed, validate_wellFormed. Qed.

Lemma filter_filter {A : Type} (f : A -> bool) (l : list A) :
  List.filter f (List.filter f l) = List.filter f l.
Proof.
  induction l as [| x l IH]; [reflexivity |]. simpl.
  destruct (f x) eqn:Hx; [| exact IH]. simpl. rewrite Hx, IH. reflexivity.
Qed.

Lemma postProcess_wellFormed (existingIds : gset string)
    (newLeads : list Lead.t) :
  Forall wellFormed (postProcess existingIds newLeads).
Proof.
  unfold postProcess, uniqueNewLeads, validatedLeads.
  induction newLeads as [| l ls IH]; simpl; [constructor |].
  destruct (isUnique existingIds (validate l)); [| exact IH].
  constructor; [apply validate_wellFormed | exact IH].
Qed.

Lemma validatedLeads_fixes (ls : list Lead.t) :
  Forall wellFormed ls -> validatedLeads ls = ls.
Proof.
  unfold validatedLeads. induction 1 as [| l ls Hl _ IH]; simpl; [reflexivity |].
  rewrite (validate_fixes_wellFormed l Hl), IH. reflexivity.
Qed.

(** X3.  Post-processing is idempotent: validating a validated lead changes
    nothing, and running both passes on their own output, against the same
    identifiers, gives that output back. *)
Theorem postProcess_idempotent (existingIds : gset string)
    (newLeads : list Lead.t) :
  (forall l, validate (validate l) = validate l) /\
  postProcess existingIds (postProcess existingIds newLeads)
  = postProcess existingIds newLeads.
Proof.
  split; [apply validate_idem |].
  unfold postProcess at 1.
  rewrite (validatedLeads_fixes _ (postProcess_wellFormed existingIds newLeads)).
  unfold postProcess, uniqueNewLeads. apply filter_filter.
Qed.

Lemma unique_elem (existingIds : gset string) (ls : list Lead.t) (l : Lead.t) :
  l ∈ uniqueNewLeads existingIds ls <-> l ∈ ls /\ isUnique existingIds l = true.
Proof.
  unfold uniqueNewLeads. rewrite !list_elem_of_In. apply filter_In.
Qed.

Lemma validated_elem (ls : list Lead.t) (l : Lead.t) :
  l ∈ ls -> validate l ∈ validatedLeads ls.
Proof.
  unfold validatedLeads. rewrite !list_elem_of_In. apply in_map.
Qed.

(** X4.  A lead kept by the duplicate filter shares its identifier, when it has
    one, with no lead of the collection the identifiers were taken from. *)
Theorem kept_lead_is_new (collection batch : list Lead.t) (new old : Lead.t) :
  new ∈ uniqueNewLeads (existingIdsOf collection) batch ->
  old ∈ collection ->
  identifier new <> "" ->
  identifier old <> identifier new.
Proof.
  intros Hn Ho Hid Heq. apply unique_elem in Hn as [_ Hu].
  unfold isUnique in Hu. apply truthy_true in Hid. rewrite Hid in Hu. simpl in Hu.
  apply negb_true_iff, bool_decide_eq_false in Hu. apply Hu.
  unfold existingIdsOf. rewrite elem_of_list_to_set, <- Heq, <- existingId_identifier.
  apply list_elem_of_In, in_map, list_elem_of_In, Ho.
Qed.

Lemma kept_lead_is_new_witness :
  identifier Sample.badLead <> identifier Scenario.wellFormedLead.
Proof.
  apply (kept_lead_is_new [Sample.badLead] [Scenario.wellFormedLead]).
  - vm_compute. left.
  - left.
  - discriminate.
Defined.

(** X5.  Validation comes before the duplicate filter: a lead whose email is
    malformed is compared by its linkedin, its email playing no part.  It
    is dropped when it has a linkedin that is among the existing
    identifiers, and kept otherwise: always, when it has no linkedin. *)
Theorem malformed_email_dedup_by_linkedin (existingIds : gset string)
    (newLeads : list Lead.t) (l : Lead.t) :
  l ∈ newLeads ->
  Lead.email l <> "NULL" -> isValidEmail (Lead.email l) = false ->
  (Lead.linkedin l <> "" -> Lead.linkedin l ∈ existingIds ->
   validate l ∉ postProcess existingIds newLeads) /\
  (Lead.linkedin l = "" \/ Lead.linkedin l ∉ existingIds ->
   validate l ∈ postProcess existingIds newLeads).
Proof.
  intros Hl Hn Hv.
  assert (identifier (validate l) = Lead.linkedin l) as Hid.
  { unfold validate. apply String.eqb_neq in Hn. rewrite Hn, Hv. reflexivity. }
  unfold postProcess. rewrite unique_elem. unfold isUnique. rewrite Hid. split.
  - intros Hne Hin [_ Hu]. apply truthy_true in Hne. rewrite Hne in Hu.
    simpl in Hu. apply negb_true_iff, bool_decide_eq_false in Hu. auto.
  - intros H. split; [apply validated_elem, Hl |].
    destruct (Js.truthy (Lead.linkedin l)) eqn:Ht; [| reflexivity]. simpl.
    apply negb_true_iff, bool_decide_eq_false.
    destruct H as [H | H]; [| exact H].
    apply truthy_true in Ht. contradiction.
Qed.

Lemma malformed_email_dedup_by_linkedin_witness :
  validate Sample.badLead ∈ postProcess {["bad@@@x"]} [Sample.badLead].
Proof.
  apply (malformed_email_dedup_by_linkedin {["bad@@@x"]} [Sample.badLead]
           Sample.badLead).
  - left.
  - discriminate.
  - vm_compute. reflexivity.
  - left. reflexivity.
Defined.


(** X6.  Whatever the provider sends, a lead that comes out of normalisation and
    validation carries the identifier generated for it and the source tag,
    has a non-empty first name, email, phone, job title, company name and
    location, and its email is the sentinel or a valid address. *)
Theorem pipeline_lead_complete (uuid : string) (l : RawLead.t) :
  let lead := validate (normalize uuid l) in
  Lead.id lead = uuid /\ Lead.source lead = Some "Gemini Search" /\
  Lead.firstName lead <> "" /\ Lead.email lead <> "" /\ Lead.phone lead <> "" /\
  Lead.jobTitle lead <> "" /\ Lead.companyName lead <> "" /\
  Lead.location lead <> "" /\ wellFormed lead.
Proof.
  intros lead.
  assert (wellFormed lead) as Hw by apply validate_wellFormed.
  assert (Lead.email lead <> "") as He
    by apply validate_email_nonempty, normalize_email_nonempty.
  subst lead. unfold validate in *.
  destruct (negb (Lead.email (normalize uuid l) =? "NULL")
            && negb (isValidEmail (Lead.email (normalize uuid l))));
    simpl; repeat split; try assumption; try discriminate;
    apply orElse_nonempty; discriminate.
Qed.

End PassesMore.

(** ** More on the controller *)

Section ControllerMore.

(** Every path through every handler, on a state given field by field. *)
Local Ltac handler_paths ev :=
  destruct ev as [criteria | | | i apiKey uuid g now | | confirmed | |];
  unfold handle;
  [ unfold handleSearch, executeSearch
  | unfold findMore, executeSearch
  | unfold tick, executeSearch
  | unfold settle, resume
  | unfold toggleLoop
  | unfold clearData
  | unfold copyEmails
  | unfold timerFires ];
  cbn [leads status currentCriteria quotaHit localStorage alerts timers
       pending leadsChanged setCurrentCriteria
       ScoutStatus.isSearching ScoutStatus.isLooping];
  repeat match goal with
    | |- context [match ?x with _ => _ end] =>
        match x with
        | context [match _ with _ => _ end] => fail 1
        | _ => destruct x eqn:?
        end
    end.

Lemma render_status (a : App) :
  ScoutStatus.isSearching (status (render a)) = ScoutStatus.isSearching (status a) /\
  ScoutStatus.lastSearchTime (status (render a))
  = ScoutStatus.lastSearchTime (status a) /\
  ScoutStatus.logs (status (render a)) = ScoutStatus.logs (status a) /\
  pending (render a) = pending a /\
  alerts (render a) = alerts a /\
  timers (render a) = timers a.
Proof. unfold render. destruct (leadsChanged a); repeat split. Qed.

Lemma handle_logs (ev : Event) (a : App) :
  (length (ScoutStatus.logs (status a)) <= 5)%nat ->
  (length (ScoutStatus.logs (status (handle ev a))) <= 5)%nat.
Proof.
  destruct a as [ls [sg lp tf lt lg] cc qh st al tm pd lc]. simpl. intros H.
  handler_paths ev; simpl; try assumption; rewrite length_take; lia.
Qed.

Lemma render_logs_bound (a : App) :
  length (ScoutStatus.logs (status (render a))) = length (ScoutStatus.logs (status a)).
Proof. destruct (render_status a) as (_ & _ & -> & _). reflexivity. Qed.

(** X7.  The log never holds more than five entries. *)
Theorem logs_bounded (stored : option Stored) (evs : list Event) :
  (length (ScoutStatus.logs (status (run (mount stored) evs))) <= 5)%nat.
Proof.
  assert (forall a, reachable a -> (length (ScoutStatus.logs (status a)) <= 5)%nat)
    as H.
  { induction 1 as [st | a ev _ IH].
    - unfold mount. destruct st as [[| saved] |]; simpl; lia.
    - unfold step. rewrite render_logs_bound. apply handle_logs, IH. }
  apply H, reachable_run, reachable_mount.
Qed.

Lemma handle_storage (ev : Event) (a : App) :
  leadsChanged a = false ->
  localStorage a = Some (Serialized (leads a)) ->
  leadsChanged (handle ev a) = false ->
  localStorage (handle ev a) = Some (Serialized (leads (handle ev a))).
Proof.
  destruct a as [ls [sg lp tf lt lg] cc qh st al tm pd lc]. simpl.
  intros -> ->.
  handler_paths ev; simpl; intros; try discriminate; reflexivity.
Qed.

Lemma reachable_storage (a : App) :
  reachable a -> localStorage a = Some (Serialized (leads a)).
Proof.
  induction 1 as [st | a ev Hr IH].
  - unfold mount. destruct st as [[| saved] |]; reflexivity.
  - pose proof (reachable_Inv a Hr) as (_ & Hc & _).
    pose proof (handle_storage ev a Hc IH) as Hh.
    unfold step.
    destruct (render_fields (handle ev a)) as (Hl & _ & _ & _ & _ & Ht & Hn).
    destruct (leadsChanged (handle ev a)) eqn:Hch.
    + rewrite Hl. apply Ht. reflexivity.
    + rewrite (Hn eq_refl). apply Hh. reflexivity.
Qed.

(** X8.  After every transition, from the mount on, the durable store holds the
    serialisation of the collection as it is in memory. *)
Theorem store_mirrors_collection (stored : option Stored) (evs : list Event) :
  localStorage (run (mount stored) evs)
  = Some (Serialized (leads (run (mount stored) evs))).
Proof. apply reachable_storage, reachable_run, reachable_mount. Qed.

(** X9.  When the stored item is the serialisation of a collection,
    mounting loads that collection and leaves the item as it is.  When
    there is no item, or the item is text on which JSON.parse throws, the
    collection is empty and the store is overwritten with the serialisation
    of the empty collection, so that the unreadable text is lost.  In each
    case the session starts neither halted, looping nor searching, with no
    criteria, no log and no awaited call.  Mounting on the store a session
    left behind, in any state it reached, gives back the collection of
    that session. *)
Theorem mount_restores :
  (forall saved,
     leads (mount (Some (Serialized saved))) = saved /\
     localStorage (mount (Some (Serialized saved))) = Some (Serialized saved)) /\
  (leads (mount None) = [] /\
   localStorage (mount None) = Some (Serialized [])) /\
  (leads (mount (Some Malformed)) = [] /\
   localStorage (mount (Some Malformed)) = Some (Serialized [])) /\
  (forall stored,
     quotaHit (mount stored) = false /\
     ScoutStatus.isLooping (status (mount stored)) = false /\
     ScoutStatus.isSearching (status (mount stored)) = false /\
     currentCriteria (mount stored) = None /\
     ScoutStatus.logs (status (mount stored)) = [] /\
     pending (mount stored) = []) /\
  (forall a, reachable a ->
     leads (mount (localStorage a)) = leads a /\
     localStorage (mount (localStorage a)) = localStorage a).
Proof.
  split; [intros saved; split; reflexivity |].
  split; [split; reflexivity |]. split; [split; reflexivity |]. split.
  - intros stored. destruct stored as [[| saved] |]; repeat split.
  - intros a Hr. rewrite (reachable_storage a Hr). split; reflexivity.
Qed.

Lemma mount_restores_witness :
  leads (mount (localStorage Sample.haltedSession)) = leads Sample.haltedSession.
Proof.
  apply mount_restores.
  unfold Sample.haltedSession. do 2 constructor. apply reachable_mount.
Defined.

Lemma handle_wellFormed (ev : Event) (a : App) :
  Forall wellFormed (leads a) -> Forall wellFormed (leads (handle ev a)).
Proof.
  destruct a as [ls [sg lp tf lt lg] cc qh st al tm pd lc]. simpl. intros H.
  handler_paths ev; simpl; try assumption; try constructor.
  apply Forall_app. split; [| exact H].
  match goal with
  | |- Forall _ (uniqueNewLeads ?ex (validatedLeads ?l)) =>
      apply (postProcess_wellFormed ex l)
  end.
Qed.

(** X10.  When the stored collection, if there is one, holds only leads whose
    email is the sentinel or a valid address, so does the collection in
    every state of the session. *)
Theorem collection_stays_wellFormed (stored : option Stored)
    (evs : list Event) :
  (forall saved, stored = Some (Serialized saved) -> Forall wellFormed saved) ->
  Forall wellFormed (leads (run (mount stored) evs)).
Proof.
  intros Hst.
  assert (Forall wellFormed (leads (mount stored))) as H0.
  { unfold mount. destruct stored as [[| saved] |]; simpl; try constructor.
    apply Hst. reflexivity. }
  revert H0. generalize (mount stored). clear Hst.
  induction evs as [| ev evs IH]; intros a Ha; simpl; [exact Ha |].
  apply IH. unfold step.
  destruct (render_fields (handle ev a)) as (-> & _).
  apply handle_wellFormed, Ha.
Qed.

Lemma collection_stays_wellFormed_witness :
  Forall wellFormed
    (leads (run (mount (Some (Serialized [Scenario.wellFormedLead])))
                [Submit Sample.criteria;
                 Settle 0 (Some "key") Sample.uuid
                        (Responded [Sample.record "Ada" "bad@@@x"]) "10:00:00"])).
Proof.
  apply (collection_stays_wellFormed
           (Some (Serialized [Scenario.wellFormedLead]))).
  intros saved [= <-]. constructor; [| constructor].
  right. vm_compute. reflexivity.
Defined.


Lemma step_settle_fields (a : App) (i : nat) (apiKey : option string)
    (uuid : nat -> string) (g : GatewayResult) (now : string)
    (existingIds : gset string) :
  pending a !! i = Some existingIds ->
  let b := resume existingIds (findLeads apiKey uuid g) now
                  (setPending (delete i (pending a)) a) in
  let a' := step a (Settle i apiKey uuid g now) in
  leads a' = leads b /\ quotaHit a' = quotaHit b /\
  currentCriteria a' = currentCriteria b /\
  ScoutStatus.isLooping (status a') = ScoutStatus.isLooping (status b) /\
  ScoutStatus.isSearching (status a') = ScoutStatus.isSearching (status b) /\
  ScoutStatus.lastSearchTime (status a') = ScoutStatus.lastSearchTime (status b) /\
  ScoutStatus.logs (status a') = ScoutStatus.logs (status b) /\
  pending a' = pending b /\ alerts a' = alerts b /\ timers a' = timers b.
Proof.
  intros Hi b a'. subst a'. unfold step.
  assert (handle (Settle i apiKey uuid g now) a = b) as ->
    by (unfold handle, settle; rewrite Hi; reflexivity).
  destruct (render_fields b) as (-> & -> & -> & -> & _).
  destruct (render_status b) as (-> & -> & -> & -> & -> & ->).
  repeat split.
Qed.

(** X11.  A search that succeeds puts the post-processed batch in front of the
    collection, in the order of the batch, and raises the count by the
    number of leads it added; it ends the search, records the time, and
    leaves the loop and the quota flag alone.  The newest log entry gives
    that number, or says that nothing new was found. *)
Theorem successful_cycle (a : App) (i : nat) (existingIds : gset string)
    (apiKey : option string) (uuid : nat -> string)
    (rawLeads : list RawLead.t) (now : string) :
  reachable a ->
  pending a !! i = Some existingIds ->
  Js.present apiKey = true ->
  let new := postProcess existingIds (normalizeAll uuid rawLeads) in
  let a' := step a (Settle i apiKey uuid (Responded rawLeads) now) in
  leads a' = (new ++ leads a)%list /\
  ScoutStatus.totalFound (status a')
  = (length new + ScoutStatus.totalFound (status a))%nat /\
  ScoutStatus.isSearching (status a') = false /\
  ScoutStatus.lastSearchTime (status a') = Some now /\
  ScoutStatus.isLooping (status a') = ScoutStatus.isLooping (status a) /\
  quotaHit a' = quotaHit a /\
  pending a' = delete i (pending a) /\
  head (ScoutStatus.logs (status a'))
  = Some (if (0 <? length new)%nat
          then "Scout returned " +:+ pretty (length new) +:+ " new agents."
          else "Scout returned no new unique leads this cycle.").
Proof.
  intros Hr Hi Hkey new a'.
  assert (leads a' = (new ++ leads a)%list) as Hl.
  { subst a'. destruct (step_settle_fields a i apiKey uuid (Responded rawLeads)
                          now existingIds Hi) as (-> & _).
    unfold findLeads. rewrite Hkey. cbn [negb].
    rewrite resume_success_leads. reflexivity. }
  split; [exact Hl |]. split.
  { pose proof (reachable_Inv a Hr) as (H1 & _).
    pose proof (reachable_Inv a' (reachable_step _ _ Hr)) as (H1' & _).
    rewrite H1', H1, Hl. apply length_app. }
  subst a'.
  destruct (step_settle_fields a i apiKey uuid (Responded rawLeads)
              now existingIds Hi)
    as (_ & -> & _ & -> & -> & -> & -> & -> & _).
  unfold findLeads. rewrite Hkey. cbn [negb]. unfold resume.
  fold (postProcess existingIds (normalizeAll uuid rawLeads)). fold new.
  destruct (0 <? length new)%nat; repeat split.
Qed.

Lemma successful_cycle_witness :
  ScoutStatus.totalFound
    (status (step Scenario.searching
                  (Settle 0 (Some "key") Sample.uuid (Responded Sample.twins)
                          "10:00:00")))
  = 2%nat.
Proof.
  assert (reachable Scenario.searching) as Hr
    by (unfold Scenario.searching; constructor; apply reachable_mount).
  pose proof (successful_cycle Scenario.searching 0 ∅ (Some "key") Sample.uuid
                Sample.twins "10:00:00" Hr eq_refl eq_refl) as H.
  cbv zeta in H. destruct H as (_ & -> & _). vm_compute. reflexivity.
Defined.

(** X12.  A search that fails with anything but the error QUOTA_EXCEEDED
    adds no lead and touches neither the store, the loop, the quota flag,
    the criteria nor the time of the last search; it ends the search and
    logs the failure.  Without an API key the search fails in this way
    whatever the provider answers: findLeads throws the error API Key is
    missing. *)
Theorem failed_cycle (a : App) (i : nat) (existingIds : gset string)
    (apiKey : option string) (uuid : nat -> string) (g : GatewayResult)
    (now : string) :
  reachable a ->
  pending a !! i = Some existingIds ->
  let a' := step a (Settle i apiKey uuid g now) in
  let aborted :=
    leads a' = leads a /\ localStorage a' = localStorage a /\
    quotaHit a' = quotaHit a /\
    ScoutStatus.isLooping (status a') = ScoutStatus.isLooping (status a) /\
    currentCriteria a' = currentCriteria a /\
    ScoutStatus.lastSearchTime (status a')
    = ScoutStatus.lastSearchTime (status a) /\
    ScoutStatus.isSearching (status a') = false /\
    head (ScoutStatus.logs (status a')) = Some "Scout encountered an error." in
  (forall error,
     findLeads apiKey uuid g = inl error ->
     thrownMessage error <> Some "QUOTA_EXCEEDED" -> aborted) /\
  (Js.present apiKey = false ->
   findLeads apiKey uuid g = inl (NewError "API Key is missing") /\ aborted).
Proof.
  intros Hr Hi a' aborted.
  assert (forall error,
            findLeads apiKey uuid g = inl error ->
            thrownMessage error <> Some "QUOTA_EXCEEDED" -> aborted) as Hgen.
  { intros error Hf Hm. subst aborted.
    assert ((match thrownMessage error with
             | Some m => m =? "QUOTA_EXCEEDED"
             | None => false
             end) = false) as Hq.
    { destruct (thrownMessage error) as [m |]; [| reflexivity].
      apply String.eqb_neq. congruence. }
    assert (localStorage a' = localStorage a) as Hst.
    { pose proof (reachable_storage a Hr) as Hs.
      pose proof (reachable_storage a' (reachable_step _ _ Hr)) as Hs'.
      rewrite Hs, Hs'. subst a'.
      destruct (step_settle_fields a i apiKey uuid g now existingIds Hi)
        as (-> & _).
      rewrite Hf. unfold resume. rewrite Hq. reflexivity. }
    subst a'.
    destruct (step_settle_fields a i apiKey uuid g now existingIds Hi)
      as (Hl & H2 & H3 & H4 & H5 & H6 & H7 & _).
    rewrite Hf in Hl, H2, H3, H4, H5, H6, H7. unfold resume in *.
    rewrite Hq in Hl, H2, H3, H4, H5, H6, H7.
    rewrite Hl, H2, H3, H4, H5, H6, H7.
    split; [reflexivity |]. split; [exact Hst |]. repeat split. }
  split; [exact Hgen |].
  intros Hk.
  assert (findLeads apiKey uuid g = inl (NewError "API Key is missing")) as Hf
    by (unfold findLeads; rewrite Hk; reflexivity).
  split; [exact Hf |]. apply (Hgen _ Hf). discriminate.
Qed.

Lemma failed_cycle_witness :
  findLeads None Sample.uuid (Responded Sample.twins)
  = inl (NewError "API Key is missing") /\
  ScoutStatus.isSearching
    (status (step Scenario.searching
                  (Settle 0 None Sample.uuid (Responded Sample.twins) "10:00:00")))
  = false.
Proof.
  assert (reachable Scenario.searching) as Hr
    by (unfold Scenario.searching; constructor; apply reachable_mount).
  pose proof (failed_cycle Scenario.searching 0 ∅ None Sample.uuid
                (Responded Sample.twins) "10:00:00" Hr eq_refl) as H.
  cbv zeta in H. destruct H as [_ H]. destruct (H eq_refl) as (Hf & Hab).
  split; [exact Hf | apply Hab].
Defined.

(** X13.  A failed gateway call halts the controller exactly when the error
    shows a sign of an exhausted quota or its own message is
    QUOTA_EXCEEDED. *)
Theorem failure_halts_iff (a : App) (i : nat) (existingIds : gset string)
    (apiKey : option string) (uuid : nat -> string)
    (error : ProviderError.t) (now : string) :
  pending a !! i = Some existingIds ->
  Js.present apiKey = true ->
  quotaHit a = false ->
  (quotaHit (step a (Settle i apiKey uuid (Failed error) now)) = true <->
   QuotaSignal error \/ ProviderError.message error = Some "QUOTA_EXCEEDED").
Proof.
  intros Hi Hkey Hq.
  destruct (step_settle_fields a i apiKey uuid (Failed error) now existingIds Hi)
    as (_ & -> & _).
  unfold findLeads, classify. rewrite Hkey. cbn [negb].
  rewrite <- isQuotaError_iff.
  destruct (isQuotaError error); unfold resume; simpl.
  - tauto.
  - destruct (ProviderError.message error) as [m |]; simpl.
    + destruct (m =? "QUOTA_EXCEEDED") eqn:Hm; simpl.
      * apply String.eqb_eq in Hm as ->. tauto.
      * apply String.eqb_neq in Hm. rewrite Hq.
        split; [discriminate | intros [H | H]; congruence].
    + rewrite Hq. split; [discriminate | intros [H | H]; discriminate].
Qed.

Lemma failure_halts_iff_witness :
  quotaHit (step Scenario.searching
                 (Settle 0 (Some "key") Sample.uuid (Failed Sample.capitalQuota)
                         "10:00:00"))
  <> true.
Proof.
  intros H.
  apply (failure_halts_iff Scenario.searching 0 ∅ (Some "key") Sample.uuid
           Sample.capitalQuota "10:00:00" eq_refl eq_refl eq_refl) in H.
  destruct H as [H | H]; [| discriminate].
  apply isQuotaError_iff in H. vm_compute in H. discriminate.
Defined.


Lemma step_pending (a : App) (ev : Event) :
  pending (step a ev) = pending (handle ev a).
Proof. unfold step. destruct (render_status (handle ev a)) as (_ & _ & _ & -> & _). reflexivity. Qed.

Lemma app_one_neq {A : Type} (l : list A) (x : A) : l <> (l ++ [x])%list.
Proof.
  intros H. apply (f_equal length) in H. rewrite length_app in H. simpl in H. lia.
Qed.

(** X14.  The tick of the loop starts a search exactly when the loop is on, no
    search is running, the controller is not halted and the collection is
    below the goal of the current criteria; the search captures the
    identifiers of the collection.  At or above the goal the tick switches
    the loop off instead, says so in the log, and calls nothing. *)
Theorem tick_starts_search_iff (a : App) :
  let ready :=
    ScoutStatus.isLooping (status a) = true /\
    ScoutStatus.isSearching (status a) = false /\ quotaHit a = false in
  ((exists ids, pending (step a Tick) = (pending a ++ [ids])%list) <->
   ready /\ exists criteria, currentCriteria a = Some criteria /\
              (length (leads a) < SearchCriteria.resultsAmount criteria)%nat) /\
  ((exists ids, pending (step a Tick) = (pending a ++ [ids])%list) ->
   pending (step a Tick) = (pending a ++ [existingIdsOf (leads a)])%list /\
   ScoutStatus.isSearching (status (step a Tick)) = true) /\
  (forall criteria,
     ready -> currentCriteria a = Some criteria ->
     (SearchCriteria.resultsAmount criteria <= length (leads a))%nat ->
     ScoutStatus.isLooping (status (step a Tick)) = false /\
     pending (step a Tick) = pending a /\
     head (ScoutStatus.logs (status (step a Tick)))
     = Some "Goal reached. Looping disabled.").
Proof.
  intros ready. subst ready. rewrite step_pending.
  unfold step.
  destruct (render_fields (handle Tick a)) as (_ & _ & _ & -> & _).
  destruct (render_status (handle Tick a)) as (-> & _ & -> & _).
  destruct a as [ls [sg lp tf lt lg] cc qh st al tm pd lc].
  unfold handle, tick, executeSearch. simpl.
  destruct cc as [c |]; simpl.
  - destruct lp, sg, qh; simpl;
      try (split; [split; [intros (ids & H); exfalso; exact (app_one_neq _ _ H)
                          | intros ((? & ? & ?) & _); discriminate]
                  | split; [intros (ids & H); exfalso; exact (app_one_neq _ _ H)
                           | intros ? (? & ? & ?); discriminate]]).
    destruct (length ls <? SearchCriteria.resultsAmount c)%nat eqn:Hlt; simpl.
    + apply Nat.ltb_lt in Hlt. split; [| split].
      * split; [intros _ | eauto]. split; [auto |]. eauto.
      * auto.
      * intros c' _ [= <-] Hge. lia.
    + apply Nat.ltb_ge in Hlt. split; [| split].
      * split; [intros (ids & H); exfalso; exact (app_one_neq _ _ H) |].
        intros (_ & c' & [= <-] & Hlt'). lia.
      * intros (ids & H). exfalso. exact (app_one_neq _ _ H).
      * auto.
  - split; [| split].
    + split; [intros (ids & H); exfalso; exact (app_one_neq _ _ H) |].
      intros (_ & c' & Hc & _). discriminate.
    + intros (ids & H). exfalso. exact (app_one_neq _ _ H).
    + intros c' _ Hc. discriminate.
Qed.

Lemma tick_starts_search_iff_witness :
  exists ids, pending (step Scenario.looping Tick)
              = (pending Scenario.looping ++ [ids])%list.
Proof.
  apply (tick_starts_search_iff Scenario.looping).
  split; [repeat split |].
  exists Sample.criteria. split; [reflexivity | vm_compute; lia].
Defined.

(** X15.  While the controller is halted nothing starts a call to the gateway:
    whatever happens, the awaited calls are those that were awaited
    before, less the one that may have settled. *)
Theorem halted_starts_no_search (a : App) (ev : Event) :
  quotaHit a = true ->
  pending (step a ev) `sublist_of` pending a.
Proof.
  intros Hq. rewrite step_pending.
  destruct a as [ls [sg lp tf lt lg] cc qh st al tm pd lc]. simpl in Hq. subst qh.
  handler_paths ev; simpl; try reflexivity; apply sublist_delete.
Qed.

Lemma halted_starts_no_search_witness :
  pending (step Sample.haltedSession (Submit Sample.criteria))
  `sublist_of` pending Sample.haltedSession.
Proof. apply halted_starts_no_search. reflexivity. Defined.

(** X16.  Only the user's toggle switches the loop on. *)
Theorem loop_enabled_only_by_toggle (a : App) (ev : Event) :
  ScoutStatus.isLooping (status a) = false ->
  ScoutStatus.isLooping (status (step a ev)) = true ->
  ev = ToggleLoop.
Proof.
  unfold step.
  destruct (render_fields (handle ev a)) as (_ & _ & _ & -> & _).
  destruct a as [ls [sg lp tf lt lg] cc qh st al tm pd lc]. simpl.
  intros ->.
  handler_paths ev; simpl; intros; try discriminate; reflexivity.
Qed.

Lemma loop_enabled_only_by_toggle_witness :
  ScoutStatus.isLooping (status (step Scenario.searching ToggleLoop)) = true /\
  ToggleLoop = ToggleLoop.
Proof.
  split; [reflexivity |].
  apply (loop_enabled_only_by_toggle Scenario.searching ToggleLoop); reflexivity.
Defined.

(** X17.  The collection only grows at the front, until it is cleared: a
    transition leaves the leads it finds where they are, behind those it
    adds, unless it is the confirmed clear-all, which leaves none. *)
Theorem collection_grows_at_front (a : App) (ev : Event) :
  (exists new, leads (step a ev) = (new ++ leads a)%list) \/
  (ev = ClearData true /\ leads (step a ev) = []).
Proof.
  unfold step. destruct (render_fields (handle ev a)) as (-> & _).
  destruct a as [ls [sg lp tf lt lg] cc qh st al tm pd lc].
  handler_paths ev; simpl;
    try (left; exists []; reflexivity); try (left; eauto; fail).
  right. auto.
Qed.

Lemma handle_inflight (ev : Event) (a : App) :
  (forall criteria, ev = Submit criteria ->
     ScoutStatus.isSearching (status a) = false) ->
  (pending a = [] /\ ScoutStatus.isSearching (status a) = false) \/
  (exists ids, pending a = [ids] /\ ScoutStatus.isSearching (status a) = true) ->
  (pending (handle ev a) = [] /\
   ScoutStatus.isSearching (status (handle ev a)) = false) \/
  (exists ids, pending (handle ev a) = [ids] /\
               ScoutStatus.isSearching (status (handle ev a)) = true).
Proof.
  destruct a as [ls [sg lp tf lt lg] cc qh st al tm pd lc]. simpl.
  intros Hsub [[-> ->] | (ids & -> & ->)].
  - handler_paths ev; simpl; eauto; try discriminate.
  - destruct ev as [criteria | | | i apiKey uuid g now | | confirmed | |];
      try (specialize (Hsub criteria eq_refl); discriminate).
    + unfold handle, findMore. simpl. destruct cc; eauto.
    + unfold handle, tick. simpl. destruct cc; [destruct lp |]; eauto.
    + unfold handle, settle. simpl. destruct i as [| i]; simpl; [| eauto].
      unfold resume.
      destruct (findLeads apiKey uuid g) as [error | newLeads].
      * destruct (match thrownMessage error with
                  | Some m => m =? "QUOTA_EXCEEDED"
                  | None => false
                  end); simpl; auto.
      * destruct (0 <? length (uniqueNewLeads ids (validatedLeads newLeads)))%nat;
          simpl; auto.
    + unfold handle, toggleLoop. simpl. destruct cc, lp, qh; simpl; eauto.
    + unfold handle, clearData. destruct confirmed; simpl; eauto.
    + unfold handle, copyEmails. simpl. eauto.
    + unfold handle, timerFires. simpl. destruct tm; simpl; eauto.
Qed.

(** X18.  When the form is submitted only while its button is enabled, at most
    one call to the gateway is awaited at any time, and isSearching is true
    exactly while one is. *)
Theorem single_search_in_flight (a : App) :
  uiReachable a ->
  (length (pending a) <= 1)%nat /\
  (ScoutStatus.isSearching (status a) = true <-> pending a <> []).
Proof.
  intros Hr.
  assert ((pending a = [] /\ ScoutStatus.isSearching (status a) = false) \/
          (exists ids, pending a = [ids] /\
                       ScoutStatus.isSearching (status a) = true)) as H.
  { induction Hr as [st | a ev _ IH Hen].
    - left. unfold mount. destruct st as [[| saved] |]; split; reflexivity.
    - rewrite step_pending. unfold step.
      destruct (render_status (handle ev a)) as (-> & _).
      apply handle_inflight; [| exact IH].
      intros criteria Hev. specialize (Hen criteria Hev).
      unfold submitEnabled in Hen.
      destruct (ScoutStatus.isSearching (status a)); [discriminate | reflexivity]. }
  destruct H as [[-> ->] | (ids & -> & ->)]; simpl.
  - split; [lia |]. split; [discriminate | congruence].
  - split; [lia |]. split; [discriminate | reflexivity].
Qed.

Lemma single_search_in_flight_witness :
  (length (pending Scenario.searching) <= 1)%nat /\
  ScoutStatus.isSearching (status Scenario.searching) = true.
Proof.
  assert (uiReachable Scenario.searching) as Hr.
  { unfold Scenario.searching. constructor; [apply uiReachable_mount |].
    intros criteria _. reflexivity. }
  destruct (single_search_in_flight Scenario.searching Hr) as [Hl Hs].
  split; [exact Hl |]. apply Hs. discriminate.
Defined.

End ControllerMore.

(** ** The exports *)

Section Exports.

Local Open Scope list_scope.

Lemma chars_app (a b : string) :
  list_ascii_of_string (a +:+ b)
  = list_ascii_of_string a ++ list_ascii_of_string b.
Proof. induction a as [| c a IH]; simpl; [reflexivity | rewrite IH; reflexivity]. Qed.

Lemma oneLine_app (a b : string) : oneLine (a +:+ b) <-> oneLine a /\ oneLine b.
Proof. unfold oneLine. rewrite chars_app, not_elem_of_app. reflexivity. Qed.

Lemma split_without (sep : ascii) (x : string) :
  sep ∉ list_ascii_of_string x -> Str.split sep x = [x].
Proof.
  induction x as [| c x IH]; simpl; intros H; [reflexivity |].
  apply not_elem_of_cons in H as [Hc Hx].
  destruct (Ascii.eqb_spec c sep) as [-> | _]; [done |].
  rewrite (IH Hx). reflexivity.
Qed.

Lemma split_app_sep (sep : ascii) (x rest : string) :
  sep ∉ list_ascii_of_string x ->
  Str.split sep (x +:+ String sep rest) = x :: Str.split sep rest.
Proof.
  induction x as [| c x IH]; simpl; intros H.
  - rewrite Ascii.eqb_refl. reflexivity.
  - apply not_elem_of_cons in H as [Hc Hx].
    destruct (Ascii.eqb_spec c sep) as [-> | _]; [done |].
    rewrite (IH Hx). reflexivity.
Qed.

(** Splitting what [join] made gives the pieces back, when no piece holds
    the separator. *)
Lemma split_join (sep : ascii) (l : list string) :
  l <> [] ->
  Forall (fun x => sep ∉ list_ascii_of_string x) l ->
  Str.split sep (Str.join (String sep EmptyString) l) = l.
Proof.
  intros Hne H. induction H as [| x l Hx Hl IH]; [done |].
  destruct l as [| y l].
  - simpl. apply split_without, Hx.
  - change (Str.join (String sep EmptyString) (x :: y :: l))
      with (x +:+ String sep (Str.join (String sep EmptyString) (y :: l))).
    rewrite (split_app_sep sep x _ Hx), IH by discriminate. reflexivity.
Qed.

Lemma join_prefix (p sep x : string) (l : list string) :
  p +:+ Str.join sep (x :: l) = Str.join sep ((p +:+ x) :: l).
Proof.
  destruct l as [| y l]; [reflexivity |].
  change (p +:+ (x +:+ (sep +:+ Str.join sep (y :: l)))
          = (p +:+ x) +:+ (sep +:+ Str.join sep (y :: l))).
  generalize (sep +:+ Str.join sep (y :: l)). intros r.
  induction p as [| c p IH]; [reflexivity |].
  change (String c (p +:+ (x +:+ r)) = String c ((p +:+ x) +:+ r)).
  rewrite IH. reflexivity.
Qed.

Lemma chars_exclude (p : ascii -> bool) (s : list ascii) (c : ascii) :
  p c = false -> Address.chars p s -> c ∉ s.
Proof.
  intros Hc Hs Hin. unfold Address.chars in Hs.
  rewrite Forall_forall in Hs. specialize (Hs c Hin). congruence.
Qed.

Lemma concat_exclude {A : Type} (f : A -> list ascii) (xs : list A) (c : ascii) :
  Forall (fun x => c ∉ f x) xs -> c ∉ concat (List.map f xs).
Proof.
  induction 1 as [| x xs Hx _ IH]; simpl; [apply not_elem_of_nil |].
  apply not_elem_of_app. auto.
Qed.

Local Ltac excluded_by H := eapply chars_exclude; [| exact H]; reflexivity.

Lemma address_oneLine (s : list ascii) :
  Address.address s -> "010"%char ∉ s.
Proof.
  intros (l & d & Hl & Hd & ->).
  apply not_elem_of_app. split; [| apply not_elem_of_cons; split; [done |]].
  - destruct Hl as [(a & rest & [_ Ha] & Hrest & ->) | (body & _ & Hb & ->)].
    + apply not_elem_of_app. split; [excluded_by Ha |].
      apply concat_exclude. eapply Forall_impl; [exact Hrest |].
      intros x [_ Hx]. simpl. apply not_elem_of_cons. split; [done |].
      excluded_by Hx.
    + apply not_elem_of_cons. split; [done |]. apply not_elem_of_app.
      split; [excluded_by Hb |].
      apply not_elem_of_cons. split; [done | apply not_elem_of_nil].
  - destruct Hd as [(a & b & c & o & [_ Ha] & [_ Hb] & [_ Hc] & [_ Ho] & ->)
                   | (labels & t & _ & Hlabels & [_ Ht] & ->)].
    + assert ("010"%char ∉ a) by excluded_by Ha.
      assert ("010"%char ∉ b) by excluded_by Hb.
      assert ("010"%char ∉ c) by excluded_by Hc.
      assert ("010"%char ∉ o) by excluded_by Ho.
      repeat (first [apply not_elem_of_cons; split; [done |]
                    | apply not_elem_of_app; split; [assumption |]]).
      apply not_elem_of_nil.
    + apply not_elem_of_app. split; [| excluded_by Ht].
      apply concat_exclude. eapply Forall_impl; [exact Hlabels |].
      intros x [_ Hx]. simpl. apply not_elem_of_app.
      split; [excluded_by Hx |].
      apply not_elem_of_cons. split; [done | apply not_elem_of_nil].
Qed.

Lemma valid_oneLine (e : string) : isValidEmail e = true -> oneLine e.
Proof.
  intros H. unfold isValidEmail in H.
  destruct (negb (Js.truthy e) || (e =? "NULL")); [discriminate |].
  apply test_re_iff in H. apply address_oneLine, H.
Qed.

Lemma emailsToCopy_valid (leads : list Lead.t) :
  Forall (fun e => isValidEmail e = true) (emailsToCopy leads).
Proof.
  unfold emailsToCopy. apply Forall_forall. intros e He.
  apply list_elem_of_In, filter_In in He as [_ He].
  apply andb_true_iff in He as [_ He]. exact He.
Qed.

(** X19.  Copy All Emails copies valid addresses only, in the order of the
    collection, one on each line: splitting the text at the line feeds
    gives the copied emails back.  When every email of the collection is
    the sentinel or a valid address, these are all its emails but the
    sentinels.  With nothing to copy the text is empty. *)
Theorem clipboard_lists_valid_emails (leads : list Lead.t) :
  Forall (fun e => isValidEmail e = true /\ e <> "NULL") (emailsToCopy leads) /\
  (Forall wellFormed leads ->
   emailsToCopy leads
   = List.filter (fun e => negb (e =? "NULL")) (List.map Lead.email leads)) /\
  (emailsToCopy leads <> [] ->
   Str.split "010" (clipboardText leads) = emailsToCopy leads) /\
  (emailsToCopy leads = [] -> clipboardText leads = "").
Proof.
  split; [| split; [| split]].
  - unfold emailsToCopy. apply Forall_forall. intros e He.
    apply list_elem_of_In, filter_In in He as [_ He].
    apply andb_true_iff in He as [Hn He]. split; [exact He |].
    apply negb_true_iff, String.eqb_neq in Hn. exact Hn.
  - unfold emailsToCopy. induction 1 as [| l ls Hl _ IH]; [reflexivity |].
    simpl. rewrite IH.
    destruct (Lead.email l =? "NULL") eqn:Hn; [reflexivity |]. simpl.
    destruct Hl as [Hl | ->]; [| reflexivity].
    apply String.eqb_neq in Hn. contradiction.
  - intros Hne. unfold clipboardText, Js.newline. apply split_join; [exact Hne |].
    eapply Forall_impl; [apply emailsToCopy_valid |].
    intros e He. apply valid_oneLine, He.
  - intros He. unfold clipboardText. rewrite He. reflexivity.
Qed.

Lemma clipboard_lists_valid_emails_witness :
  Str.split "010" (clipboardText [Scenario.wellFormedLead; Scenario.anonymousLead])
  = ["ada@engines.co"].
Proof.
  rewrite (proj1 (proj2 (proj2 (clipboard_lists_valid_emails
                     [Scenario.wellFormedLead; Scenario.anonymousLead]))));
    [vm_compute; reflexivity | vm_compute; discriminate].
Defined.

Lemma oneLine_join_cells (sep : string) (cells : list string) :
  oneLine sep -> Forall oneLine cells -> oneLine (Str.join sep cells).
Proof.
  intros Hsep H. induction H as [| x l Hx Hl IH]; [apply not_elem_of_nil |].
  destruct l as [| y l]; [exact Hx |].
  change (oneLine (x +:+ (sep +:+ Str.join sep (y :: l)))).
  rewrite !oneLine_app. auto.
Qed.

Lemma oneLine_quoteCell (c : string) : oneLine c -> oneLine (quoteCell c).
Proof.
  intros H. unfold quoteCell.
  change (oneLine (String Js.dquote EmptyString
                   +:+ (c +:+ String Js.dquote EmptyString))).
  rewrite !oneLine_app. repeat split; try exact H;
    (apply not_elem_of_cons; split; [done | apply not_elem_of_nil]).
Qed.

(** X20.  When no field of the collection holds a line feed, the text of the CSV
    export has the heading line and then one line for each lead, in the
    order of the collection, each made of the ten cells of the lead between
    double quotes. *)
Theorem csv_one_line_per_lead (leads : list Lead.t) :
  Forall (fun l => Forall oneLine (csvRow l)) leads ->
  Str.split "010" (csvContent leads)
  = ("data:text/csv;charset=utf-8," +:+ Str.join "," csvHeaders)
    :: List.map csvLine (List.map csvRow leads).
Proof.
  intros H. unfold csvContent. rewrite join_prefix.
  unfold Js.newline. apply split_join; [discriminate |].
  constructor.
  - vm_compute. intros Hin.
    repeat (apply elem_of_cons in Hin as [Hin | Hin]; [discriminate |]).
    apply elem_of_nil in Hin. exact Hin.
  - apply Forall_forall. intros line Hline.
    apply list_elem_of_In, in_map_iff in Hline as (row & <- & Hrow).
    apply in_map_iff in Hrow as (l & <- & Hl).
    rewrite Forall_forall in H. specialize (H l (proj2 (list_elem_of_In _ _) Hl)).
    unfold csvLine. apply oneLine_join_cells.
    + apply not_elem_of_cons. split; [done | apply not_elem_of_nil].
    + apply Forall_forall. intros cell Hcell.
      apply list_elem_of_In, in_map_iff in Hcell as (c & <- & Hc).
      apply oneLine_quoteCell. rewrite Forall_forall in H.
      apply H, list_elem_of_In, Hc.
Qed.

Lemma csv_one_line_per_lead_witness :
  length (Str.split "010" (csvContent [Scenario.wellFormedLead; Sample.badLead]))
  = 3%nat.
Proof.
  rewrite (csv_one_line_per_lead [Scenario.wellFormedLead; Sample.badLead]);
    [reflexivity |].
  repeat constructor; vm_compute; intros Hin;
    repeat (apply elem_of_cons in Hin as [Hin | Hin]; [discriminate |]);
    apply elem_of_nil in Hin; exact Hin.
Defined.

End Exports.

(** ** The search form *)

Section Form.

Import SearchForm.
Local Open Scope list_scope.

Lemma emailRegex_shape (m : list ascii) : Re.Lang emailRegex m <-> shape m.
Proof.
  unfold emailRegex, shape. split.
  - intros H.
    apply Lang_Cat_iff in H as (l & r1 & -> & Hl & H).
    apply Lang_Cat_iff in H as (k & r2 & -> & Hk & H).
    apply Lang_Cat_iff in H as (d & r3 & -> & Hd & H).
    apply Lang_Cat_iff in H as (k' & t & -> & Hk' & Ht).
    apply Lang_Chr_iff in Hk as ->. apply Lang_Chr_iff in Hk' as ->.
    apply Lang_Plus_Cls in Hl as [? ?]. apply Lang_Plus_Cls in Hd as [? ?].
    apply Lang_AtLeast2_Cls in Ht as [? ?].
    exists l, d, t. repeat (split; [assumption |]). reflexivity.
  - intros (l & d & t & Hl1 & Hl2 & Hd1 & Hd2 & Ht1 & Ht2 & ->).
    apply Re.LCat; [apply Lang_Plus_Cls; auto |].
    apply (Re.LCat _ _ ["@"%char]); [apply Lang_Chr_iff; reflexivity |].
    apply Re.LCat; [apply Lang_Plus_Cls; auto |].
    apply (Re.LCat _ _ ["."%char]); [apply Lang_Chr_iff; reflexivity |].
    apply Lang_AtLeast2_Cls. auto.
Qed.

Lemma testEmail_iff (s : string) : testEmail s = true <-> endsInShape s.
Proof.
  unfold testEmail, Re.test, endsInShape. rewrite matches_Lang, Lang_Cat_iff.
  split.
  - intros (pre & m & Hs & _ & Hm). exists pre, m.
    split; [exact Hs | apply emailRegex_shape, Hm].
  - intros (pre & m & Hs & Hm). exists pre, m. split; [exact Hs |].
    split; [| apply emailRegex_shape, Hm].
    apply Lang_Star_Cls. unfold Address.chars. apply Forall_forall. reflexivity.
Qed.

Lemma partOk_iff (part : string) :
  partOk part <->
  Js.includes (Str.trim part) "@" && negb (testEmail (Str.trim part)) = false.
Proof.
  unfold partOk. rewrite <- includes_iff, <- testEmail_iff.
  destruct (Js.includes (Str.trim part) "@"), (testEmail (Str.trim part));
    simpl; intuition congruence.
Qed.

Lemma checkPart_ok (error part : string) :
  partOk part -> checkPart error part = error.
Proof. intros H. apply partOk_iff in H. unfold checkPart. rewrite H. reflexivity. Qed.

Lemma checkPart_bad (error part : string) :
  ~ partOk part ->
  checkPart error part = "Invalid email format in keywords: " +:+ Str.trim part.
Proof.
  intros H. unfold checkPart.
  destruct (Js.includes (Str.trim part) "@" && negb (testEmail (Str.trim part)))
    eqn:Hb; [reflexivity |].
  exfalso. apply H, partOk_iff, Hb.
Qed.

Lemma partOk_dec (part : string) : partOk part \/ ~ partOk part.
Proof.
  rewrite partOk_iff.
  destruct (Js.includes (Str.trim part) "@" && negb (testEmail (Str.trim part)));
    [right; discriminate | left; reflexivity].
Qed.

Lemma fold_checkPart (parts : list string) (e0 : string) :
  (Forall partOk parts /\ fold_left checkPart parts e0 = e0) \/
  (exists before p after,
     parts = before ++ p :: after /\ ~ partOk p /\ Forall partOk after /\
     fold_left checkPart parts e0
     = "Invalid email format in keywords: " +:+ Str.trim p).
Proof.
  induction parts as [| p parts IH] using rev_ind.
  - left. split; [constructor | reflexivity].
  - rewrite fold_left_app. simpl.
    destruct (partOk_dec p) as [Hp | Hp].
    + rewrite (checkPart_ok _ _ Hp).
      destruct IH as [[Hall Heq] | (before & q & after & -> & Hq & Hafter & Heq)].
      * left. split; [| exact Heq]. apply Forall_app. split; [exact Hall |].
        constructor; [exact Hp | constructor].
      * right. exists before, q, (after ++ [p]).
        rewrite <- app_assoc. split; [reflexivity |]. split; [exact Hq |].
        split; [| exact Heq]. apply Forall_app. split; [exact Hafter |].
        constructor; [exact Hp | constructor].
    + right. exists parts, p, []. split; [reflexivity |]. split; [exact Hp |].
      split; [constructor | apply checkPart_bad, Hp].
Qed.

(** X21.  The error of the keywords is empty exactly when every part between
    commas passes: once trimmed, it has no at sign or it ends in a local
    part, an at sign, a domain, a dot and two letters or more, whatever
    comes before.  Otherwise the error names the last part that fails, the
    earlier failures being overwritten. *)
Theorem keywords_error_last_offender (value : string) :
  (keywordsError value = "" <-> Forall partOk (Str.split "," value)) /\
  (keywordsError value <> "" ->
   exists before p after,
     Str.split "," value = before ++ p :: after /\
     ~ partOk p /\ Forall partOk after /\
     keywordsError value
     = "Invalid email format in keywords: " +:+ Str.trim p).
Proof.
  unfold keywordsError.
  destruct (fold_checkPart (Str.split "," value) "")
    as [[Hall Heq] | (before & p & after & Hs & Hp & Hafter & Heq)].
  - split; [rewrite Heq; tauto |]. rewrite Heq. done.
  - split.
    + rewrite Heq. split; [discriminate |].
      intros Hall. exfalso. rewrite Hs in Hall.
      apply Forall_app in Hall as [_ Hall]. apply Forall_cons_1 in Hall as [Hok _].
      exact (Hp Hok).
    + intros _. eauto 10.
Qed.

Lemma keywords_error_last_offender_witness :
  exists before p after,
    Str.split "," "@rocq, me@x.co, z@@z, SaaS" = before ++ p :: after /\
    ~ partOk p /\ Forall partOk after /\
    keywordsError "@rocq, me@x.co, z@@z, SaaS"
    = "Invalid email format in keywords: " +:+ Str.trim p.
Proof.
  apply (keywords_error_last_offender "@rocq, me@x.co, z@@z, SaaS").
  vm_compute. discriminate.
Defined.

Lemma hasError_iff (errors : gmap string string) :
  hasError errors = true <-> exists k e, errors !! k = Some e /\ e <> "".
Proof.
  unfold hasError. rewrite existsb_exists. split.
  - intros ([k e] & Hin & He). simpl in He. exists k, e.
    split; [apply elem_of_map_to_list, list_elem_of_In, Hin | apply truthy_true, He].
  - intros (k & e & Hk & He). exists (k, e).
    split; [apply list_elem_of_In, elem_of_map_to_list, Hk | apply truthy_true, He].
Qed.

Lemma after_snoc (edits : list Edit) (e : Edit) :
  after (edits ++ [e]) = apply (after edits) e.
Proof. unfold after. rewrite fold_left_app. reflexivity. Qed.

Lemma after_errors_keys (edits : list Edit) (k : string) :
  k <> "keywords" -> inputErrors (after edits) !! k = None.
Proof.
  intros Hk. induction edits as [| e edits IH] using rev_ind; [reflexivity |].
  rewrite after_snoc. unfold apply, handleChange. simpl.
  destruct (name e =? "keywords"); [| exact IH].
  rewrite lookup_insert_ne by congruence. exact IH.
Qed.

(** X22.  Submitting the form hands its data to the search unless the keywords
    carry an error.  After an edit of the keywords the form is blocked
    exactly when the new value has an error; an edit of any other input
    changes nothing to that, so the error stays until the keywords are
    edited again.  What is handed over holds the edited value under the
    name of the input, the state of the box for a checkbox. *)
Theorem submit_blocked_by_keywords (edits : list Edit) (e : Edit) :
  let st := after edits in
  (name e = "keywords" ->
   (handleSubmit (apply st e) = None <-> keywordsError (value e) <> "")) /\
  (name e <> "keywords" ->
   (handleSubmit (apply st e) = None <-> handleSubmit st = None)) /\
  (forall data, handleSubmit (apply st e) = Some data ->
     data !! name e
     = Some (if type e =? "checkbox" then Flag (checked e) else Text (value e)) /\
     forall k, k <> name e -> data !! k = formData st !! k) /\
  handleSubmit initial = Some (formData initial).
Proof.
  intros st.
  assert (forall s, handleSubmit s = None <-> hasError (inputErrors s) = true) as Hsub.
  { intros s. unfold handleSubmit. destruct (hasError (inputErrors s));
      split; try discriminate; reflexivity. }
  split; [| split; [| split]].
  - intros Hn. rewrite Hsub, hasError_iff. unfold apply, handleChange. simpl.
    apply String.eqb_eq in Hn. rewrite Hn. split.
    + intros (k & err & Hk & Herr).
      destruct (decide (k = "keywords")) as [-> | Hne].
      * rewrite lookup_insert_eq in Hk. congruence.
      * rewrite lookup_insert_ne in Hk by congruence.
        subst st. rewrite (after_errors_keys edits k Hne) in Hk. discriminate.
    + intros Herr. exists "keywords", (keywordsError (value e)).
      split; [apply lookup_insert_eq | exact Herr].
  - intros Hn. rewrite !Hsub. unfold apply, handleChange. simpl.
    apply String.eqb_neq in Hn. rewrite Hn. reflexivity.
  - intros data Hd. unfold handleSubmit in Hd.
    destruct (hasError (inputErrors (apply st e))); [discriminate |].
    injection Hd as <-. unfold apply, handleChange. simpl. split.
    + apply lookup_insert_eq.
    + intros k Hk. apply lookup_insert_ne. congruence.
  - reflexivity.
Qed.

Lemma submit_blocked_by_keywords_witness :
  handleSubmit
    (apply (after [edit "keywords" "foo@bar" "text" false])
           (edit "location" "Paris" "text" false))
  = None.
Proof.
  apply (submit_blocked_by_keywords [edit "keywords" "foo@bar" "text" false]
           (edit "location" "Paris" "text" false)).
  - discriminate.
  - vm_compute. reflexivity.
Defined.


Lemma Substring_at (s : string) :
  Substring "@" s -> "@"%char ∈ list_ascii_of_string s.
Proof.
  intros (pre & post & ->). rewrite chars_app. apply elem_of_app. right. left.
Qed.

Lemma trimStart_chars (s : string) (c : ascii) :
  c ∈ list_ascii_of_string (Str.trimStart s) -> c ∈ list_ascii_of_string s.
Proof.
  induction s as [| d s IH]; simpl; [auto |].
  destruct (Str.isBlank d); [intros H; right; apply IH, H | auto].
Qed.

Lemma trimEnd_chars (s : string) (c : ascii) :
  c ∈ list_ascii_of_string (Str.trimEnd s) -> c ∈ list_ascii_of_string s.
Proof.
  induction s as [| d s IH]; simpl; [auto |].
  destruct (Str.isBlank d && negb (Js.truthy (Str.trimEnd s))); simpl.
  - intros H. apply elem_of_nil in H. done.
  - intros H. apply elem_of_cons in H as [-> | H]; [left | right; apply IH, H].
Qed.

Lemma split_chars (sep : ascii) (s part : string) (c : ascii) :
  part ∈ Str.split sep s -> c ∈ list_ascii_of_string part ->
  c ∈ list_ascii_of_string s.
Proof.
  revert part. induction s as [| d s IH]; simpl; intros part Hp Hc.
  - apply list_elem_of_singleton in Hp as ->. exact Hc.
  - destruct (d =? sep)%char.
    + apply elem_of_cons in Hp as [-> | Hp]; [apply elem_of_nil in Hc; done |].
      right. exact (IH part Hp Hc).
    + destruct (Str.split sep s) as [| first rest] eqn:Hs.
      * apply list_elem_of_singleton in Hp as ->. simpl in Hc.
        apply elem_of_cons in Hc as [-> | Hc]; [left | apply elem_of_nil in Hc; done].
      * apply elem_of_cons in Hp as [-> | Hp].
        -- simpl in Hc. apply elem_of_cons in Hc as [-> | Hc]; [left |].
           right. apply (IH first); [left | exact Hc].
        -- right. apply (IH part); [right; exact Hp | exact Hc].
Qed.

(** X23.  Keywords without an at sign never give an error. *)
Theorem keywords_without_at_pass (value : string) :
  "@"%char ∉ list_ascii_of_string value -> keywordsError value = "".
Proof.
  intros Hat. unfold keywordsError.
  destruct (fold_checkPart (Str.split "," value) "")
    as [[_ Heq] | (before & p & after & Hs & Hp & _)]; [exact Heq |].
  exfalso. apply Hp. intros Hsub. exfalso. apply Hat.
  apply (split_chars "," value p).
  - rewrite Hs. apply elem_of_app. right. left.
  - apply trimStart_chars, trimEnd_chars, Substring_at, Hsub.
Qed.

Lemma keywords_without_at_pass_witness :
  keywordsError "SaaS, B2B, React" = "".
Proof.
  apply keywords_without_at_pass. vm_compute. intros Hin.
  repeat (apply elem_of_cons in Hin as [Hin | Hin]; [discriminate |]).
  apply elem_of_nil in Hin. exact Hin.
Defined.

End Form.
